(** * Package [sorter]: selection, insertion and shell sort over [Sortable]

    A shallow embedding of [src/sorter/sorter.go].  The three algorithms
    only talk to the collection through the [Sortable] interface, so they
    are written once, over a type class, in a small monad that threads the
    collection, records every [Less] and [Exchange] call and propagates
    panics.  [multiKeySorter] is the one implementation of the interface
    that the package contains. *)

From Stdlib Require Import ZArith Lia.
From stdpp Require Import base option list.

Local Open Scope Z_scope.

(** ** Go's [int]

    [int] is taken to be 64 bits wide (two's complement).  Every
    arithmetic operation of the source is written with its wrap-around. *)
Module GoInt.

Definition min_int : Z := -9223372036854775808.
Definition max_int : Z := 9223372036854775807.
Definition modulus : Z := 18446744073709551616.

Definition is_int (z : Z) : Prop := min_int <= z <= max_int.

Definition wrap (z : Z) : Z := (z - min_int) mod modulus + min_int.

Definition add (x y : Z) : Z := wrap (x + y).
Definition sub (x y : Z) : Z := wrap (x - y).
Definition mul (x y : Z) : Z := wrap (x * y).
(** [x / y] of Go truncates toward zero. *)
Definition quot (x y : Z) : Z := wrap (x ÷ y).

End GoInt.

Arguments GoInt.wrap : simpl never.
Arguments GoInt.add : simpl never.
Arguments GoInt.sub : simpl never.
Arguments GoInt.mul : simpl never.
Arguments GoInt.quot : simpl never.

(** ** Runs: outcome, final collection and the calls made *)

Inductive call : Type :=
| CallLess (i j : Z)
| CallExchange (i j : Z).

Inductive outcome (X : Type) : Type :=
| Done (x : X)
| Panic
| OutOfFuel.
Arguments Done {X} x.
Arguments Panic {X}.
Arguments OutOfFuel {X}.

Record run (C X : Type) : Type := Run {
  result : outcome X;
  final : C;
  calls : list call
}.
Arguments Run {C X} _ _ _.
Arguments result {C X} _.
Arguments final {C X} _.
Arguments calls {C X} _.

Definition M (C X : Type) : Type := C -> run C X.

Definition ret {C X} (x : X) : M C X := fun c => Run (Done x) c [].

Definition bind {C X Y} (m : M C X) (k : X -> M C Y) : M C Y := fun c =>
  let r := m c in
  match result r with
  | Done x =>
      let r' := k x (final r) in
      Run (result r') (final r') (calls r ++ calls r')
  | Panic => Run Panic (final r) (calls r)
  | OutOfFuel => Run OutOfFuel (final r) (calls r)
  end.

Definition diverge {C X} : M C X := fun c => Run OutOfFuel c [].

Notation "x <- m ;; k" := (bind m (fun x => k))
  (at level 100, m at next level, right associativity).
Notation "m ;; k" := (bind m (fun _ => k))
  (at level 100, right associativity).

(** ** The [Sortable] interface

    [Length] and [Less] only read: one that panics returns [None].
    [Exchange] writes, and a panic can strike between two of its writes:
    it tells whether it returned or panicked, and in both cases the
    collection it left behind. *)
Inductive mutation (C : Type) : Type :=
| Returned (c : C)
| Panicked (c : C).
Arguments Returned {C} c.
Arguments Panicked {C} c.

Class Sortable (C : Type) : Type := {
  Length : C -> option Z;
  Less : C -> Z -> Z -> option bool;
  Exchange : C -> Z -> Z -> mutation C
}.

Section Calls.
Context {C : Type} `{Sortable C}.

(** [coll.Less(i, j)] *)
Definition less (i j : Z) : M C bool := fun c =>
  match Less c i j with
  | Some b => Run (Done b) c [CallLess i j]
  | None => Run Panic c [CallLess i j]
  end.

(** [coll.Exchange(i, j)] *)
Definition exchange (i j : Z) : M C unit := fun c =>
  match Exchange c i j with
  | Returned c' => Run (Done tt) c' [CallExchange i j]
  | Panicked c' => Run Panic c' [CallExchange i j]
  end.

End Calls.

(** ** The algorithms

    Each Go loop is a [Fixpoint] on a fuel that its caller sets to one
    more than the loop's variant; running out of fuel is an outcome of
    its own, [OutOfFuel], which the theorems below exclude. *)
Section Algorithms.
Context {C : Type} `{Sortable C}.

(** [for j := i + 1; j < end && coll.Less(j, min); j++ { min = j }] *)
Fixpoint selection_scan (fuel : nat) (end_ j min : Z) : M C Z :=
  match fuel with
  | O => diverge
  | S fuel' =>
      if j <? end_ then
        b <- less j min ;;
        if (b : bool) then selection_scan fuel' end_ (GoInt.add j 1) j
        else ret min
      else ret min
  end.

(** [for i := bgn; i < end; i++ { ...; coll.Exchange(i, min) }] *)
Fixpoint selection_loop (fuel : nat) (end_ i : Z) : M C unit :=
  match fuel with
  | O => diverge
  | S fuel' =>
      if i <? end_ then
        min <- selection_scan (S (Z.to_nat (end_ - GoInt.add i 1)))
                 end_ (GoInt.add i 1) i ;;
        exchange i min ;;
        selection_loop fuel' end_ (GoInt.add i 1)
      else ret tt
  end.

Definition Selection (bgn end_ : Z) : M C unit :=
  selection_loop (S (Z.to_nat (end_ - bgn))) end_ bgn.

(** [for j := i; j > bgn && coll.Less(j, j-1); j-- { coll.Exchange(j, j - 1) }] *)
Fixpoint insertion_sift (fuel : nat) (bgn j : Z) : M C unit :=
  match fuel with
  | O => diverge
  | S fuel' =>
      if j >? bgn then
        b <- less j (GoInt.sub j 1) ;;
        if (b : bool) then
          exchange j (GoInt.sub j 1) ;;
          insertion_sift fuel' bgn (GoInt.sub j 1)
        else ret tt
      else ret tt
  end.

(** [for i := bgn; i < end; i++ { ... }] *)
Fixpoint insertion_loop (fuel : nat) (bgn end_ i : Z) : M C unit :=
  match fuel with
  | O => diverge
  | S fuel' =>
      if i <? end_ then
        insertion_sift (S (Z.to_nat (i - bgn))) bgn i ;;
        insertion_loop fuel' bgn end_ (GoInt.add i 1)
      else ret tt
  end.

Definition Insertion (bgn end_ : Z) : M C unit :=
  insertion_loop (S (Z.to_nat (end_ - bgn))) bgn end_ bgn.

(** [for h < (end - bgn) / 3 { h = 3 * h + 1 }], with [n = end - bgn];
    the value is the final [h].  The loop touches no collection, so it
    is a pure function; [None] is the exhausted fuel. *)
Fixpoint shell_gap (fuel : nat) (n h : Z) : option Z :=
  match fuel with
  | O => None
  | S fuel' =>
      if h <? GoInt.quot n 3 then
        shell_gap fuel' n (GoInt.add (GoInt.mul 3 h) 1)
      else Some h
  end.

Definition lift_gap (o : option Z) : M C Z :=
  match o with
  | Some h => ret h
  | None => diverge
  end.

(** [for j := i; j >= h && coll.Less(j, j - h); j -= h { coll.Exchange(j, j - h) }] *)
Fixpoint shell_sift (fuel : nat) (h j : Z) : M C unit :=
  match fuel with
  | O => diverge
  | S fuel' =>
      if j >=? h then
        b <- less j (GoInt.sub j h) ;;
        if (b : bool) then
          exchange j (GoInt.sub j h) ;;
          shell_sift fuel' h (GoInt.sub j h)
        else ret tt
      else ret tt
  end.

(** [for i := h; i < (end - bgn); i++ { ... }] *)
Fixpoint shell_pass (fuel : nat) (n h i : Z) : M C unit :=
  match fuel with
  | O => diverge
  | S fuel' =>
      if i <? n then
        shell_sift (S (Z.to_nat i)) h i ;;
        shell_pass fuel' n h (GoInt.add i 1)
      else ret tt
  end.

(** [for h >= 1 { ...; h = h / 3 }] *)
Fixpoint shell_gaps (fuel : nat) (n h : Z) : M C unit :=
  match fuel with
  | O => diverge
  | S fuel' =>
      if h >=? 1 then
        shell_pass (S (Z.to_nat (n - h))) n h h ;;
        shell_gaps fuel' n (GoInt.quot h 3)
      else ret tt
  end.

Definition Shell (bgn end_ : Z) : M C unit :=
  let n := GoInt.sub end_ bgn in
  h <- lift_gap (shell_gap (S (Z.to_nat n)) n 1) ;;
  shell_gaps (S (Z.to_nat h)) n h.

End Algorithms.

(** ** [multiKeySorter]

    [coll] is an [interface{}]: the nil interface, a slice, or a value of
    any other kind.  The slice shares its backing array with the caller,
    so the [coll] of the final adapter is what the caller sees after the
    call.  Elements are values of one type [A], as
    [slice.Index(i).Interface()] returns them; [lesser] is a pure
    function of them. *)
Inductive dyn (A : Type) : Type :=
| DynNil
| DynSlice (s : list A)
| DynOther.
Arguments DynNil {A}.
Arguments DynSlice {A} s.
Arguments DynOther {A}.

Record multiKeySorter (A : Type) : Type := MKS {
  coll : dyn A;
  lesser : A -> A -> bool
}.
Arguments MKS {A} _ _.
Arguments coll {A} _.
Arguments lesser {A} _.

(** [Exchange] wraps the element it has read with [reflect.ValueOf]
    again.  Of a nil interface value (an element of a [[]interface{}]
    that holds nothing) this is the zero [Value], on which [Value.Set]
    panics.  [is_nil] tells these elements. *)
Class Element (A : Type) : Type := is_nil : A -> bool.

(** An [int] in an interface is never the nil interface. *)
#[export] Instance int_Element : Element Z := fun _ => false.

(** The elements of a slice of an interface type: [None] is the nil
    one. *)
#[export] Instance interface_Element {A : Type} : Element (option A) :=
  fun x => match x with None => true | Some _ => false end.

Section MultiKeySorter.
Context {A : Type} `{Element A}.

(** [slice.Index(i)]: panics unless [0 <= i < len]. *)
Definition index (s : list A) (i : Z) : option A :=
  if 0 <=? i then s !! Z.to_nat i else None.

(** The three statements of [Exchange] on the slice:
    [temp := reflect.ValueOf(slice.Index(i).Interface())] panics when [i]
    is out of range;
    [slice.Index(i).Set(reflect.ValueOf(slice.Index(j).Interface()))]
    panics when [j] is out of range or the element at [j] is nil, before
    it has written;
    [slice.Index(j).Set(temp)] panics when the element that was at [i]
    is nil, after position [i] has been overwritten. *)
Definition swap (s : list A) (i j : Z) : mutation (list A) :=
  match index s i with
  | None => Panicked s
  | Some x =>
      match index s j with
      | None => Panicked s
      | Some y =>
          if is_nil y then Panicked s
          else
            let s1 := <[Z.to_nat i := y]> s in
            if is_nil x then Panicked s1
            else Returned (<[Z.to_nat j := x]> s1)
      end
  end.

Definition mks_Length (mks : multiKeySorter A) : option Z :=
  match coll mks with
  | DynSlice s => Some (Z.of_nat (length s))
  | _ => None
  end.

Definition mks_Exchange (mks : multiKeySorter A) (i j : Z)
  : mutation (multiKeySorter A) :=
  match coll mks with
  | DynSlice s =>
      match swap s i j with
      | Returned s' => Returned (MKS (DynSlice s') (lesser mks))
      | Panicked s' => Panicked (MKS (DynSlice s') (lesser mks))
      end
  | _ => Panicked mks
  end.

Definition mks_Less (mks : multiKeySorter A) (i j : Z) : option bool :=
  match coll mks with
  | DynSlice s =>
      match index s i, index s j with
      | Some x, Some y => Some (lesser mks x y)
      | _, _ => None
      end
  | _ => None
  end.

#[export] Instance multiKeySorter_Sortable : Sortable (multiKeySorter A) := {
  Length := mks_Length;
  Less := mks_Less;
  Exchange := mks_Exchange
}.

(** [By(by).Sort(coll)]: the argument [mks.Length()] is evaluated before
    [Shell] is entered. *)
Definition By_Sort (by_ : A -> A -> bool) (c : dyn A)
  : run (multiKeySorter A) unit :=
  let mks := MKS c by_ in
  match Length mks with
  | Some len => Shell 0 len mks
  | None => Run Panic mks []
  end.

(** What the caller's slice holds after a run. *)
Definition slice_of (mks : multiKeySorter A) : list A :=
  match coll mks with
  | DynSlice s => s
  | _ => []
  end.

End MultiKeySorter.

(** A slice of integers under [<]. *)
Definition ints (s : list Z) : multiKeySorter Z := MKS (DynSlice s) Z.ltb.

(** A comparator for a slice of interface values that hold an [int] or
    nothing: the nil value is ordered before every [int]. *)
Definition nil_first (x y : option Z) : bool :=
  match x, y with
  | None, Some _ => true
  | Some a, Some b => a <? b
  | _, None => false
  end.

(** ** Vocabulary of the properties *)

(** The range [[bgn, end_)] of a collection is non-decreasing: no
    position of it is ordered before its predecessor. *)
Definition nondecreasing {C : Type} `{Sortable C} (c : C) (bgn end_ : Z) : Prop :=
  forall k, bgn <= k -> k + 1 < end_ -> Less c (k + 1) k = Some false.

(** The elements at positions [[bgn, end_)] of a slice: Go's [s[bgn:end_]]. *)
Definition sub_slice {A : Type} (s : list A) (bgn end_ : Z) : list A :=
  take (Z.to_nat (end_ - bgn)) (drop (Z.to_nat bgn) s).

Definition is_exchange (e : call) : bool :=
  match e with CallExchange _ _ => true | CallLess _ _ => false end.

Definition is_less (e : call) : bool :=
  match e with CallLess _ _ => true | CallExchange _ _ => false end.

(** The [Exchange] calls, and the [Less] calls, of a trace. *)
Definition exchanges (t : list call) : list call := List.filter is_exchange t.
Definition lesses (t : list call) : list call := List.filter is_less t.

(** Both positions of a call lie in [[lo, hi)]. *)
Definition call_within (lo hi : Z) (e : call) : Prop :=
  match e with
  | CallLess i j | CallExchange i j => (lo <= i < hi) /\ (lo <= j < hi)
  end.

(** An [Exchange] of a position with itself. *)
Definition self_exchange (e : call) : Prop :=
  match e with
  | CallExchange i j => i = j
  | CallLess _ _ => False
  end.

(** Whether the outcome is a normal return. *)
Definition returned {X : Type} (o : outcome X) : bool :=
  match o with
  | Done _ => true
  | Panic | OutOfFuel => false
  end.

(** The run [r] ended, normally with a value satisfying [Q] or by a
    panic of the collection, and every call it made satisfies [P]. *)
Definition safe {C X : Type} (P : call -> Prop) (Q : X -> Prop) (r : run C X) : Prop :=
  match result r with
  | Done x => Q x
  | Panic => True
  | OutOfFuel => False
  end /\ Forall P (calls r).

(** No element of the list is a nil interface value. *)
Definition no_nil {A : Type} `{Element A} (l : list A) : Prop :=
  Forall (fun x => is_nil x = false) l.

(** [s'] holds the elements of [s], the first [n] of them reordered and
    the others in place. *)
Definition prefix_reordered {A : Type} (n : nat) (s s' : list A) : Prop :=
  (length s' = length s) /\ (take n s' ≡ₚ take n s) /\ (drop n s' = drop n s).

(** [s'] holds the elements of [s], those at positions [[bgn, end_)]
    reordered and the others in place. *)
Definition range_reordered {A : Type} (bgn end_ : Z) (s s' : list A) : Prop :=
  (length s' = length s) /\
  (take (Z.to_nat bgn) s' = take (Z.to_nat bgn) s) /\
  (sub_slice s' bgn end_ ≡ₚ sub_slice s bgn end_) /\
  (drop (Z.to_nat end_) s' = drop (Z.to_nat end_) s).

(** [c'] has the comparator of [c] and, behind it, a slice of the same
    elements as the slice of [c], or the same non-slice value. *)
Definition same_elements {A : Type} (c c' : multiKeySorter A) : Prop :=
  lesser c' = lesser c /\
  match coll c with
  | DynSlice s => exists s', coll c' = DynSlice s' /\ s' ≡ₚ s
  | x => coll c' = x
  end.

(** [c'] has the comparator of [c] and, behind it, a slice as long as
    the slice of [c], or the same non-slice value. *)
Definition same_shape {A : Type} (c c' : multiKeySorter A) : Prop :=
  lesser c' = lesser c /\
  match coll c with
  | DynSlice s => exists s', coll c' = DynSlice s' /\ length s' = length s
  | x => coll c' = x
  end.

(** What a run keeps of the adapter it starts on: the elements when it
    returns, the shape in any case. *)
Definition kept {A : Type} (b : bool) (c c' : multiKeySorter A) : Prop :=
  if b then same_elements c c' else same_shape c c'.

(** Among the first [n] elements of [s], none is ordered before an
    earlier one. *)
Definition inversion_free {A : Type} (f : A -> A -> bool) (n : Z) (s : list A) : Prop :=
  forall a b x y, 0 <= a < b -> b < n ->
    index s a = Some x -> index s b = Some y -> f y x = false.

(** The increments 1, 4, 13, 40, 121, ... *)
Fixpoint gap_seq (k : nat) : Z :=
  match k with
  | O => 1
  | S k' => 3 * gap_seq k' + 1
  end.

Definition is_gap (h : Z) : Prop := exists k, h = gap_seq k.

(** [h] is the largest increment that is less than [b]. *)
Definition largest_gap_below (b h : Z) : Prop :=
  is_gap h /\ h < b /\ forall g, is_gap g -> g < b -> g <= h.

(** [h] is the smallest increment that is at least [b]. *)
Definition least_gap_from (b h : Z) : Prop :=
  is_gap h /\ b <= h /\ forall g, is_gap g -> b <= g -> h <= g.

(** The comparator never orders two elements both ways. *)
Definition asymmetric {A : Type} (f : A -> A -> bool) : Prop :=
  forall x y, f x y = true -> f y x = false.

(** Being not ordered before is transitive; with [asymmetric] this makes
    [f] a strict weak ordering. *)
Definition negatively_transitive {A : Type} (f : A -> A -> bool) : Prop :=
  forall x y z, f y x = false -> f z y = false -> f z x = false.

(** No element of the list is ordered before its predecessor. *)
Fixpoint sorted_adj {A : Type} (f : A -> A -> bool) (l : list A) : Prop :=
  match l with
  | [] => True
  | x :: t =>
      match t with
      | [] => True
      | y :: _ => f y x = false /\ sorted_adj f t
      end
  end.

(** * Properties *)

(** ** Go's [int] *)
Module GoIntFacts.
Import GoInt.

Lemma wrap_small z : is_int z -> wrap z = z.
Proof.
  unfold is_int, wrap, min_int, max_int, modulus. intros Hz.
  rewrite Z.mod_small by lia. lia.
Qed.

Lemma add_small x y : is_int (x + y) -> add x y = x + y.
Proof. apply wrap_small. Qed.

Lemma sub_small x y : is_int (x - y) -> sub x y = x - y.
Proof. apply wrap_small. Qed.

Lemma mul_small x y : is_int (x * y) -> mul x y = x * y.
Proof. apply wrap_small. Qed.

Lemma quot3_small x : is_int x -> quot x 3 = x ÷ 3.
Proof.
  intros Hx. apply wrap_small. unfold is_int, min_int, max_int in *.
  pose proof (Z.quot_rem' x 3) as Hq.
  destruct (Z_le_gt_dec 0 x) as [Hpos|Hneg].
  - pose proof (Z.rem_bound_pos x 3 Hpos ltac:(lia)). lia.
  - pose proof (Z.rem_bound_pos_neg x 3 ltac:(lia) ltac:(lia)). lia.
Qed.

Lemma quot3_nonneg x : 0 <= x -> is_int x -> quot x 3 = x / 3.
Proof.
  intros H0 Hx. rewrite quot3_small by done. apply Z.quot_div_nonneg; lia.
Qed.

Lemma succ_small i e : is_int i -> is_int e -> i < e -> add i 1 = i + 1.
Proof.
  unfold is_int, min_int, max_int. intros. apply add_small.
  unfold is_int, min_int, max_int. lia.
Qed.

Lemma pred_small j b : is_int j -> is_int b -> b < j -> sub j 1 = j - 1.
Proof.
  unfold is_int, min_int, max_int. intros. apply sub_small.
  unfold is_int, min_int, max_int. lia.
Qed.

Lemma sub_sub_0 x y : sub (sub x y) 0 = sub x y.
Proof.
  unfold sub at 1. rewrite Z.sub_0_r. apply wrap_small.
  unfold sub, wrap, is_int, min_int, max_int, modulus.
  pose proof (Z.mod_pos_bound (x - y - -9223372036854775808)
                18446744073709551616 ltac:(lia)). lia.
Qed.

End GoIntFacts.

(** ** The increments of [Shell] *)
Section Gaps.
Import GoInt GoIntFacts.

Lemma gap_seq_pos k : 1 <= gap_seq k.
Proof. induction k; simpl; lia. Qed.

Lemma gap_seq_step k : gap_seq k < gap_seq (S k).
Proof. pose proof (gap_seq_pos k). simpl. lia. Qed.

Lemma gap_seq_mono k m : (k <= m)%nat -> gap_seq k <= gap_seq m.
Proof.
  induction 1 as [|m Hle IH]; [lia|].
  pose proof (gap_seq_step m). lia.
Qed.

Lemma gap_seq_lt_inv k m : gap_seq k < gap_seq m -> (k < m)%nat.
Proof.
  intros Hlt. destruct (Nat.lt_ge_cases k m) as [|Hge]; [done|].
  apply gap_seq_mono in Hge. lia.
Qed.

Lemma gap_seq_quot k : gap_seq (S k) ÷ 3 = gap_seq k.
Proof.
  pose proof (gap_seq_pos k). simpl.
  rewrite Z.quot_div_nonneg by lia.
  symmetry. apply (Z.div_unique _ _ _ 1); lia.
Qed.

Lemma is_gap_seq k : is_gap (gap_seq k).
Proof. by exists k. Qed.

(** The first loop of [Shell], started at the [m]-th increment with all
    earlier increments below [n / 3], stops at the first increment that
    is not below [n / 3]. *)
Lemma shell_gap_from fuel : forall n m,
  is_int n ->
  (forall k, (k < m)%nat -> gap_seq k < quot n 3) ->
  (Z.to_nat (quot n 3 - gap_seq m) < fuel)%nat ->
  exists m',
    shell_gap fuel n (gap_seq m) = Some (gap_seq m') /\
    (m <= m')%nat /\
    quot n 3 <= gap_seq m' /\
    forall k, (k < m')%nat -> gap_seq k < quot n 3.
Proof.
  induction fuel as [|fuel IH]; intros n m Hn Hbelow Hfuel; [lia|].
  cbn [shell_gap]. destruct (Z.ltb_spec (gap_seq m) (quot n 3)) as [Hlt|Hge].
  - pose proof (gap_seq_pos m) as Hpos.
    assert (Hq : quot n 3 = n ÷ 3) by (by apply quot3_small).
    assert (H0 : 0 <= n).
    { destruct (Z_le_gt_dec 0 n) as [|Hneg]; [done|].
      pose proof (Z.quot_opp_l n 3 ltac:(lia)) as Ho.
      pose proof (Z.quot_pos (- n) 3 ltac:(lia) ltac:(lia)). lia. }
    assert (H3 : 3 * (n ÷ 3) <= n).
    { rewrite Z.quot_div_nonneg by lia. apply Z.mul_div_le. lia. }
    assert (Hnext : add (mul 3 (gap_seq m)) 1 = gap_seq (S m)).
    { assert (Hb : 3 * gap_seq m + 1 <= max_int).
      { destruct Hn as [_ Hn]. rewrite Hq in Hlt.
        generalize dependent (n ÷ 3). intros q Hlt H3. lia. }
      unfold max_int in Hb.
      unfold add, mul.
      rewrite (wrap_small (3 * gap_seq m))
        by (unfold is_int, min_int, max_int; lia).
      rewrite (wrap_small (3 * gap_seq m + 1))
        by (unfold is_int, min_int, max_int; lia).
      done. }
    rewrite Hnext.
    destruct (IH n (S m) Hn) as (m' & Hrun & Hle & Hstop & Hall).
    + intros k Hk. destruct (decide (k = m)) as [->|]; [done|].
      apply Hbelow. lia.
    + pose proof (gap_seq_step m). lia.
    + exists m'. repeat split; [done|lia|done|done].
  - exists m. repeat split; [lia|done|done].
Qed.

Lemma shell_gap_least n :
  is_int n ->
  exists m,
    shell_gap (S (Z.to_nat n)) n 1 = Some (gap_seq m) /\
    least_gap_from (quot n 3) (gap_seq m).
Proof.
  intros Hn.
  destruct (shell_gap_from (S (Z.to_nat n)) n 0 Hn) as (m & Hrun & _ & Hstop & Hall).
  - intros k Hk. lia.
  - cbn [gap_seq]. rewrite quot3_small by done.
    destruct (Z_le_gt_dec 0 n) as [Hpos|Hneg].
    + pose proof (Z.quot_le_upper_bound n 3 n ltac:(lia)) as Hub.
      assert (n ÷ 3 <= n) by (apply Z.quot_le_upper_bound; lia). lia.
    + assert (n ÷ 3 <= 0).
      { pose proof (Z.quot_opp_l n 3 ltac:(lia)).
        pose proof (Z.quot_pos (- n) 3 ltac:(lia) ltac:(lia)). lia. }
      lia.
  - exists m. split; [done|]. split; [apply is_gap_seq|]. split; [done|].
    intros g [k ->] Hg.
    apply gap_seq_mono. destruct (Nat.le_gt_cases m k) as [|Hlt]; [done|].
    specialize (Hall k Hlt). lia.
Qed.

End Gaps.

(** ** Loops that are not entered, for any collection *)
Section Exits.
Context {C : Type} `{Sortable C}.
Import GoInt GoIntFacts.

Lemma bind_ret_l {X Y} (x : X) (k : X -> M C Y) c :
  bind (ret x) k c =
    Run (result (k x c)) (final (k x c)) (calls (k x c)).
Proof. reflexivity. Qed.

Lemma run_eta {X} (r : run C X) : Run (result r) (final r) (calls r) = r.
Proof. by destruct r. Qed.

Lemma selection_loop_exit fuel end_ i c :
  end_ <= i -> selection_loop (S fuel) end_ i c = Run (Done tt) c [].
Proof.
  intros Hi. cbn [selection_loop].
  by rewrite (proj2 (Z.ltb_ge i end_)) by lia.
Qed.

Lemma selection_scan_exit fuel end_ j min c :
  end_ <= j -> selection_scan (S fuel) end_ j min c = Run (Done min) c [].
Proof.
  intros Hj. cbn [selection_scan].
  by rewrite (proj2 (Z.ltb_ge j end_)) by lia.
Qed.

Lemma insertion_loop_exit fuel bgn end_ i c :
  end_ <= i -> insertion_loop (S fuel) bgn end_ i c = Run (Done tt) c [].
Proof.
  intros Hi. cbn [insertion_loop].
  by rewrite (proj2 (Z.ltb_ge i end_)) by lia.
Qed.

Lemma insertion_sift_exit fuel bgn j c :
  j <= bgn -> insertion_sift (S fuel) bgn j c = Run (Done tt) c [].
Proof.
  intros Hj. cbn [insertion_sift].
  destruct (Z.gtb_spec j bgn); [lia|done].
Qed.

Lemma shell_pass_exit fuel n h i c :
  n <= i -> shell_pass (S fuel) n h i c = Run (Done tt) c [].
Proof.
  intros Hi. cbn [shell_pass].
  by rewrite (proj2 (Z.ltb_ge i n)) by lia.
Qed.

Lemma shell_gaps_exit fuel n h c :
  h < 1 -> shell_gaps (S fuel) n h c = Run (Done tt) c [].
Proof.
  intros Hh. cbn [shell_gaps].
  destruct (Z.geb_spec h 1); [lia|done].
Qed.

Lemma selection_loop_step fuel end_ i c :
  i < end_ ->
  selection_loop (S fuel) end_ i c =
    bind (selection_scan (S (Z.to_nat (end_ - add i 1))) end_ (add i 1) i)
      (fun min => bind (exchange i min)
         (fun _ => selection_loop fuel end_ (add i 1))) c.
Proof.
  intros Hi. cbn [selection_loop].
  by rewrite (proj2 (Z.ltb_lt i end_)) by lia.
Qed.

Lemma insertion_loop_step fuel bgn end_ i c :
  i < end_ ->
  insertion_loop (S fuel) bgn end_ i c =
    bind (insertion_sift (S (Z.to_nat (i - bgn))) bgn i)
      (fun _ => insertion_loop fuel bgn end_ (add i 1)) c.
Proof.
  intros Hi. cbn [insertion_loop].
  by rewrite (proj2 (Z.ltb_lt i end_)) by lia.
Qed.

Lemma shell_pass_step fuel n h i c :
  i < n ->
  shell_pass (S fuel) n h i c =
    bind (shell_sift (S (Z.to_nat i)) h i)
      (fun _ => shell_pass fuel n h (add i 1)) c.
Proof.
  intros Hi. cbn [shell_pass].
  by rewrite (proj2 (Z.ltb_lt i n)) by lia.
Qed.

Lemma shell_gaps_step fuel n h c :
  1 <= h ->
  shell_gaps (S fuel) n h c =
    bind (shell_pass (S (Z.to_nat (n - h))) n h h)
      (fun _ => shell_gaps fuel n (quot h 3)) c.
Proof.
  intros Hh. cbn [shell_gaps].
  destruct (Z.geb_spec h 1); [done|lia].
Qed.

(** With at most one element in the range, [Shell] enters no inner loop. *)
Lemma Shell_short bgn end_ c :
  0 <= sub end_ bgn <= 1 -> Shell bgn end_ c = Run (Done tt) c [].
Proof.
  intros Hn. unfold Shell. set (n := sub end_ bgn) in *.
  assert (Hq : quot n 3 = 0).
  { unfold quot. replace (n ÷ 3) with 0; [done|].
    symmetry. apply Z.quot_small. lia. }
  cbn [shell_gap]. rewrite Hq. change (1 <? 0) with false.
  cbn [lift_gap]. rewrite bind_ret_l.
  change (Z.to_nat 1) with 1%nat. cbn [shell_gaps].
  change (1 >=? 1) with true.
  unfold bind. rewrite shell_pass_exit by lia. cbn [result final calls].
  change (quot 1 3) with 0. reflexivity.
Qed.

End Exits.

(** ** Slices behind a [multiKeySorter] *)
Section SliceFacts.
Context {A : Type} `{Element A} (f : A -> A -> bool).
Implicit Types (s l : list A) (i j : Z).

Lemma index_inrange s i :
  0 <= i < Z.of_nat (length s) -> exists x, index s i = Some x.
Proof.
  intros Hi. unfold index. rewrite (proj2 (Z.leb_le 0 i)) by lia.
  apply lookup_lt_is_Some_2. lia.
Qed.

Lemma index_Some_inrange s i x :
  index s i = Some x -> 0 <= i < Z.of_nat (length s).
Proof.
  unfold index. destruct (Z.leb_spec 0 i) as [Hi|Hi]; [|done].
  intros Hx%lookup_lt_Some. lia.
Qed.

Lemma index_None s i :
  index s i = None <-> ~ (0 <= i < Z.of_nat (length s)).
Proof.
  split.
  - intros Hn Hi. destruct (index_inrange s i Hi) as [x Hx]. congruence.
  - intros Hi. destruct (index s i) as [x|] eqn:Hx; [|done].
    apply index_Some_inrange in Hx. done.
Qed.

Lemma index_app_at l1 x l2 i :
  i = Z.of_nat (length l1) -> index (l1 ++ x :: l2) i = Some x.
Proof.
  intros ->. unfold index. rewrite (proj2 (Z.leb_le 0 _)) by lia.
  rewrite Nat2Z.id. by rewrite list_lookup_middle.
Qed.

Lemma less_run s i j x y :
  index s i = Some x -> index s j = Some y ->
  less i j (MKS (DynSlice s) f)
    = Run (Done (f x y)) (MKS (DynSlice s) f) [CallLess i j].
Proof.
  intros Hx Hy. unfold less. cbn [Less multiKeySorter_Sortable].
  unfold mks_Less. cbn [coll lesser]. by rewrite Hx, Hy.
Qed.

Lemma exchange_run s i j s' :
  swap s i j = Returned s' ->
  exchange i j (MKS (DynSlice s) f)
    = Run (Done tt) (MKS (DynSlice s') f) [CallExchange i j].
Proof.
  intros Hs. unfold exchange. cbn [Exchange multiKeySorter_Sortable].
  unfold mks_Exchange. cbn [coll lesser]. by rewrite Hs.
Qed.

Lemma swap_inside s i j x y :
  index s i = Some x -> index s j = Some y ->
  is_nil x = false -> is_nil y = false ->
  swap s i j = Returned (<[Z.to_nat j := x]> (<[Z.to_nat i := y]> s)).
Proof. intros Hx Hy Hnx Hny. unfold swap. by rewrite Hx, Hy, Hny, Hnx. Qed.

Lemma swap_adjacent l1 y x l2 j :
  j = Z.of_nat (length l1) + 1 ->
  is_nil x = false -> is_nil y = false ->
  swap (l1 ++ y :: x :: l2) j (j - 1) = Returned (l1 ++ x :: y :: l2).
Proof.
  intros Hj Hnx Hny. unfold swap.
  assert (Hx : index (l1 ++ y :: x :: l2) j = Some x).
  { change (l1 ++ y :: x :: l2) with (l1 ++ [y] ++ x :: l2).
    rewrite app_assoc. apply index_app_at. rewrite length_app. simpl. lia. }
  assert (Hy : index (l1 ++ y :: x :: l2) (j - 1) = Some y).
  { apply index_app_at. lia. }
  rewrite Hx, Hy, Hny, Hnx. cbv zeta. f_equal.
  replace (Z.to_nat j) with (S (length l1)) by lia.
  replace (Z.to_nat (j - 1)) with (length l1) by lia.
  rewrite !insert_app_r_alt by lia.
  rewrite Nat.sub_diag.
  replace (S (length l1) - length l1)%nat with 1%nat by lia.
  reflexivity.
Qed.

End SliceFacts.

(** ** Traces and adjacent order *)
Section TraceFacts.

Lemma exchanges_app t1 t2 : exchanges (t1 ++ t2) = exchanges t1 ++ exchanges t2.
Proof. unfold exchanges. apply List.filter_app. Qed.

Lemma lesses_app t1 t2 : lesses (t1 ++ t2) = lesses t1 ++ lesses t2.
Proof. unfold lesses. apply List.filter_app. Qed.

Lemma call_within_mono lo hi lo' hi' e :
  lo' <= lo -> hi <= hi' -> call_within lo hi e -> call_within lo' hi' e.
Proof. destruct e; simpl; lia. Qed.

Lemma bind_Done {C X Y : Type} (m : M C X) (k : X -> M C Y) c x c1 t1 :
  m c = Run (Done x) c1 t1 ->
  bind m k c = Run (result (k x c1)) (final (k x c1)) (t1 ++ calls (k x c1)).
Proof. intros Hm. unfold bind. by rewrite Hm. Qed.

Lemma bind_Done_run {C X Y : Type} (m : M C X) (k : X -> M C Y) c x c1 t1 r c2 t2 :
  m c = Run (Done x) c1 t1 ->
  k x c1 = Run r c2 t2 ->
  bind m k c = Run r c2 (t1 ++ t2).
Proof. intros Hm Hk. rewrite (bind_Done m k c x c1 t1 Hm). by rewrite Hk. Qed.

End TraceFacts.

Section SortedAdj.
Context {A : Type} (f : A -> A -> bool).
Implicit Types (l : list A).

Lemma sorted_adj_cons x l :
  sorted_adj f (x :: l) <->
  (forall y, head l = Some y -> f y x = false) /\ sorted_adj f l.
Proof.
  destruct l as [|y l]; simpl.
  - split; [intros _; split; [by intros|done] | done].
  - split.
    + intros [Hxy Hl]. split; [|done]. by intros ? [= <-].
    + intros [Hh Hl]. split; [by apply Hh | done].
Qed.

Lemma sorted_adj_app_inv l1 l2 :
  sorted_adj f (l1 ++ l2) -> sorted_adj f l1 /\ sorted_adj f l2.
Proof.
  induction l1 as [|x l1 IH]; [by split|].
  rewrite <- app_comm_cons, !sorted_adj_cons. intros [Hh Hl].
  destruct (IH Hl) as [H1 H2]. split; [|done]. split; [|done].
  intros y Hy. apply Hh. destruct l1; [done|]. exact Hy.
Qed.

(** Putting [x] between two parts of a list in adjacent order. *)
Lemma sorted_adj_middle l1 x l2 :
  sorted_adj f l1 -> sorted_adj f l2 ->
  (forall y, last l1 = Some y -> f x y = false) ->
  (forall y, head l2 = Some y -> f y x = false) ->
  sorted_adj f (l1 ++ x :: l2).
Proof.
  intros H1 H2 Hl Hh. induction l1 as [|a l1 IH].
  - simpl app. apply sorted_adj_cons. by split.
  - rewrite <- app_comm_cons. apply sorted_adj_cons.
    apply sorted_adj_cons in H1 as [Ha H1]. split.
    + intros y Hy. destruct l1 as [|b l1].
      * simpl in Hy. injection Hy as <-. by apply Hl.
      * simpl in Hy. injection Hy as <-. by apply Ha.
    + apply IH; [done|]. intros y Hy. apply Hl.
      destruct l1; [done|]. exact Hy.
Qed.

Lemma sorted_adj_lookup l :
  sorted_adj f l <->
  forall (i : nat) x y, l !! i = Some x -> l !! S i = Some y -> f y x = false.
Proof.
  induction l as [|a l IH].
  - split; [by intros _ i x y Hx | done].
  - rewrite sorted_adj_cons, IH. split.
    + intros [Hh Hl] i x y Hx Hy. destruct i as [|i].
      * simpl in Hx. injection Hx as <-. apply Hh.
        destruct l; [done|]. exact Hy.
      * exact (Hl i x y Hx Hy).
    + intros Hall. split.
      * intros y Hy. apply (Hall 0%nat a y); [done|].
        destruct l; [done|]. exact Hy.
      * intros i x y Hx Hy. exact (Hall (S i) x y Hx Hy).
Qed.

End SortedAdj.

(** ** Insertion sort on a slice *)
Section InsertionFacts.
Context {A : Type} `{Element A} (f : A -> A -> bool).
Implicit Types (pre L R U post : list A).
Import GoInt GoIntFacts.

Lemma snoc_case L : L = [] \/ exists L' y, L = L' ++ [y].
Proof.
  destruct L as [|a L] using rev_ind; [by left|]. right. by exists L, a.
Qed.

(** The inner loop of [Insertion], started on the element [x] that
    follows the part [L] of the range: [x] moves left past the elements
    [L2] that it is ordered before, one exchange each, and stops at the
    start of the range or behind an element it is not ordered before. *)
Lemma insertion_sift_spec fuel : forall pre L x R,
  is_int (Z.of_nat (length pre) + Z.of_nat (length L)) ->
  (length L < fuel)%nat ->
  no_nil L -> is_nil x = false ->
  exists L1 L2 t,
    L = L1 ++ L2 /\
    insertion_sift fuel (Z.of_nat (length pre))
        (Z.of_nat (length pre) + Z.of_nat (length L))
        (MKS (DynSlice (pre ++ L ++ x :: R)) f)
      = Run (Done tt) (MKS (DynSlice (pre ++ L1 ++ x :: L2 ++ R)) f) t /\
    Forall (fun y => f x y = true) L2 /\
    (forall y, last L1 = Some y -> f x y = false) /\
    length (exchanges t) = length L2 /\
    Forall (call_within (Z.of_nat (length pre))
              (Z.of_nat (length pre) + Z.of_nat (length L) + 1)) t.
Proof.
  induction fuel as [|fuel IH]; intros pre L x R Hint Hfuel Hnn Hnx; [lia|].
  destruct (snoc_case L) as [-> | (L' & y & ->)].
  - exists [], [], []. split; [done|]. split.
    + rewrite insertion_sift_exit by (simpl; lia). done.
    + split; [done|]. split; [done|]. split; done.
  - apply Forall_app in Hnn as [HnL' Hny]. apply Forall_inv in Hny.
    rewrite length_app in *. cbn [length] in *.
    set (bgn := Z.of_nat (length pre)) in *.
    set (j := bgn + Z.of_nat (length L' + 1)).
    assert (Hj : j = Z.of_nat (length (pre ++ L')) + 1).
    { rewrite length_app. lia. }
    assert (Hsub : sub j 1 = j - 1).
    { apply sub_small. unfold is_int, min_int, max_int in *. lia. }
    assert (Hs : pre ++ (L' ++ [y]) ++ x :: R = (pre ++ L') ++ y :: x :: R).
    { by rewrite <- !app_assoc. }
    assert (Hx : index (pre ++ (L' ++ [y]) ++ x :: R) j = Some x).
    { replace (pre ++ (L' ++ [y]) ++ x :: R) with ((pre ++ L' ++ [y]) ++ x :: R)
        by (by rewrite <- !app_assoc).
      apply index_app_at. rewrite !length_app. simpl. lia. }
    assert (Hy : index (pre ++ (L' ++ [y]) ++ x :: R) (j - 1) = Some y).
    { rewrite Hs. apply index_app_at. lia. }
    cbn [insertion_sift].
    destruct (Z.gtb_spec j bgn) as [_|Hle]; [|lia].
    rewrite Hsub.
    destruct (f x y) eqn:Hxy.
    + (* exchanged, and the loop goes on from [j - 1] *)
      destruct (IH pre L' x (y :: R)) as (L1 & L2 & t & HL & Hrun & HL2 & HL1 & Hex & Hin).
      { unfold is_int, min_int, max_int in *. lia. }
      { lia. }
      { done. }
      { done. }
      exists L1, (L2 ++ [y]), ([CallLess j (j - 1)] ++ [CallExchange j (j - 1)] ++ t).
      split; [by rewrite HL, app_assoc|]. split.
      * eapply bind_Done_run; [by apply less_run|]. rewrite Hxy.
        eapply bind_Done_run.
        { apply exchange_run. rewrite Hs. by apply swap_adjacent. }
        replace (j - 1) with (bgn + Z.of_nat (length L')) by lia.
        replace ((pre ++ L') ++ x :: y :: R) with (pre ++ L' ++ x :: y :: R)
          by (by rewrite <- !app_assoc).
        unfold bgn. rewrite Hrun. by rewrite <- !app_assoc.
      * split; [apply Forall_app; split; [done | by constructor]|].
        split; [done|]. split.
        -- rewrite !exchanges_app, !length_app, Hex. simpl. lia.
        -- apply Forall_app. split; [constructor; [simpl; lia | done]|].
           apply Forall_app. split; [constructor; [simpl; lia | done]|].
           eapply Forall_impl; [exact Hin|]. intros e.
           apply call_within_mono; lia.
    + (* not ordered before its predecessor: the loop stops *)
      exists (L' ++ [y]), [], ([CallLess j (j - 1)] ++ []).
      split; [by rewrite app_nil_r|]. split.
      * eapply bind_Done_run; [by apply less_run|]. rewrite Hxy. reflexivity.
      * split; [done|]. split.
        -- intros z Hz. rewrite last_snoc in Hz. by injection Hz as <-.
        -- split; [done|]. constructor; [simpl; lia | done].
Qed.

End InsertionFacts.

Section InsertionLoop.
Context {A : Type} `{Element A} (f : A -> A -> bool).
Implicit Types (pre S U post : list A).
Import GoInt GoIntFacts.

(** An element that has to move left contradicts adjacent order. *)
Lemma sorted_adj_no_move L1 L2 x U :
  sorted_adj f ((L1 ++ L2) ++ x :: U) ->
  Forall (fun y => f x y = true) L2 ->
  L2 = [].
Proof.
  intros Hs HL2. destruct (snoc_case L2) as [-> | (L2' & z & ->)]; [done|].
  exfalso. apply Forall_app in HL2 as [_ Hz]. apply Forall_inv in Hz.
  replace ((L1 ++ L2' ++ [z]) ++ x :: U) with ((L1 ++ L2') ++ z :: x :: U) in Hs
    by (by rewrite <- !app_assoc).
  apply sorted_adj_app_inv in Hs as [_ Hs]. simpl in Hs.
  destruct Hs as [Hxz _]. simpl in Hz. congruence.
Qed.

(** The outer loop of [Insertion], with the part [S] of the range
    already passed and the part [U] still ahead. *)
Lemma insertion_loop_spec fuel : forall pre S U post,
  is_int (Z.of_nat (length pre) + Z.of_nat (length S) + Z.of_nat (length U)) ->
  (length U < fuel)%nat ->
  no_nil (S ++ U) ->
  exists S' t,
    insertion_loop fuel (Z.of_nat (length pre))
        (Z.of_nat (length pre) + Z.of_nat (length S) + Z.of_nat (length U))
        (Z.of_nat (length pre) + Z.of_nat (length S))
        (MKS (DynSlice (pre ++ S ++ U ++ post)) f)
      = Run (Done tt) (MKS (DynSlice (pre ++ S' ++ post)) f) t /\
    S' ≡ₚ S ++ U /\
    (asymmetric f -> sorted_adj f S -> sorted_adj f S') /\
    (sorted_adj f (S ++ U) -> S' = S ++ U /\ exchanges t = []) /\
    Forall (call_within (Z.of_nat (length pre))
              (Z.of_nat (length pre) + Z.of_nat (length S) + Z.of_nat (length U))) t.
Proof.
  induction fuel as [|fuel IH]; intros pre S U post Hint Hfuel Hnn; [lia|].
  unfold no_nil in *. apply Forall_app in Hnn as [HnS HnU].
  destruct U as [|x U].
  - exists S, []. rewrite insertion_loop_exit by (simpl; lia).
    rewrite !app_nil_r. simpl app. repeat split; done.
  - apply Forall_cons in HnU as [Hnx HnU]. cbn [length] in *.
    set (bgn := Z.of_nat (length pre)) in *.
    set (i := bgn + Z.of_nat (length S)) in *.
    set (end_ := i + Z.of_nat (Datatypes.S (length U))) in *.
    assert (Hadd : add i 1 = i + 1).
    { apply add_small. unfold is_int, min_int, max_int in *. lia. }
    destruct (insertion_sift_spec f (Datatypes.S (Z.to_nat (i - bgn))) pre S x (U ++ post))
      as (L1 & L2 & t1 & HS & Hsift & HL2 & HL1 & Hex1 & Hin1).
    { unfold is_int, min_int, max_int in *. lia. }
    { lia. }
    { exact HnS. }
    { exact Hnx. }
    destruct (IH pre (L1 ++ x :: L2) U post)
      as (S' & t2 & Hloop & Hperm & Hsorted & Hidle & Hin2).
    { assert (HlenS : length S = (length L1 + length L2)%nat)
        by (by rewrite HS, length_app).
      rewrite length_app. cbn [length].
      unfold is_int, min_int, max_int, end_, i, bgn in *. lia. }
    { lia. }
    { apply Forall_app. split; [|done]. rewrite HS in HnS.
      apply Forall_app in HnS as [Hn1 Hn2].
      apply Forall_app. split; [done|]. by constructor. }
    assert (Hlen : Z.of_nat (length (L1 ++ x :: L2)) = Z.of_nat (length S) + 1).
    { rewrite HS, !length_app. cbn [length]. lia. }
    rewrite Hlen in Hloop, Hin2.
    assert (E1 : Z.of_nat (length pre) + (Z.of_nat (length S) + 1)
                   + Z.of_nat (length U) = end_)
      by (unfold end_, i, bgn; lia).
    assert (E2 : Z.of_nat (length pre) + (Z.of_nat (length S) + 1) = i + 1)
      by (unfold i, bgn; lia).
    rewrite E1, E2 in Hloop. rewrite E1 in Hin2.
    exists S', (t1 ++ t2). split; [|split; [|split; [|split]]].
    + rewrite insertion_loop_step by lia. rewrite Hadd.
      eapply bind_Done_run; [exact Hsift|].
      replace (pre ++ L1 ++ x :: L2 ++ U ++ post)
        with (pre ++ (L1 ++ x :: L2) ++ U ++ post)
        by (by rewrite <- !app_assoc).
      exact Hloop.
    + rewrite Hperm, HS. rewrite <- !app_assoc. simpl.
      by rewrite !Permutation_middle.
    + intros Hasym Hs. apply Hsorted; [done|]. rewrite HS in Hs.
      apply sorted_adj_app_inv in Hs as [Hs1 Hs2].
      apply sorted_adj_middle; [done|done|done|].
      intros y Hy. apply Hasym. destruct L2 as [|z L2]; [done|].
      simpl in Hy. injection Hy as <-. by apply Forall_cons in HL2 as [? _].
    + intros Hs. rewrite HS in Hs.
      pose proof (sorted_adj_no_move L1 L2 x U Hs HL2) as ->.
      rewrite app_nil_r in HS, Hs. subst L1.
      destruct Hidle as [-> Hex2].
      { by rewrite <- app_assoc. }
      split; [by rewrite <- app_assoc|].
      rewrite exchanges_app, Hex2, app_nil_r.
      simpl in Hex1. by destruct (exchanges t1).
    + apply Forall_app. split; [|done].
      eapply Forall_impl; [exact Hin1|]. intros e.
      apply call_within_mono; lia.
Qed.

End InsertionLoop.

(** ** Ranges of a slice *)
Section Ranges.
Context {A : Type} `{Element A} (f : A -> A -> bool).
Implicit Types (s pre mid post : list A).

Lemma slice_split s bgn end_ :
  0 <= bgn <= end_ -> end_ <= Z.of_nat (length s) ->
  s = take (Z.to_nat bgn) s ++ sub_slice s bgn end_ ++ drop (Z.to_nat end_) s.
Proof.
  intros Hb He. unfold sub_slice.
  replace (Z.to_nat end_) with (Z.to_nat bgn + Z.to_nat (end_ - bgn))%nat by lia.
  rewrite <- drop_drop. by rewrite !take_drop.
Qed.

Lemma sub_slice_length s bgn end_ :
  0 <= bgn <= end_ -> end_ <= Z.of_nat (length s) ->
  Z.of_nat (length (sub_slice s bgn end_)) = end_ - bgn.
Proof.
  intros Hb He. unfold sub_slice. rewrite length_take, length_drop. lia.
Qed.

Lemma sub_slice_lookup s bgn end_ (i : nat) :
  0 <= bgn ->
  sub_slice s bgn end_ !! i =
    if decide (Z.of_nat i < end_ - bgn) then s !! (Z.to_nat bgn + i)%nat else None.
Proof.
  intros Hb. unfold sub_slice. case_decide as Hi.
  - rewrite lookup_take_lt by lia. by rewrite lookup_drop.
  - apply lookup_take_ge. lia.
Qed.

Lemma parts_take pre mid post :
  take (length pre) (pre ++ mid ++ post) = pre.
Proof. by rewrite take_app_length. Qed.

Lemma parts_drop pre mid post n :
  n = (length pre + length mid)%nat ->
  drop n (pre ++ mid ++ post) = post.
Proof.
  intros ->. rewrite app_assoc. apply drop_app_length'. by rewrite length_app.
Qed.

Lemma parts_sub_slice pre mid post bgn end_ :
  bgn = Z.of_nat (length pre) -> end_ = bgn + Z.of_nat (length mid) ->
  sub_slice (pre ++ mid ++ post) bgn end_ = mid.
Proof.
  intros -> ->. unfold sub_slice. rewrite Nat2Z.id, drop_app_length.
  replace (Z.to_nat _) with (length mid) by lia. by rewrite take_app_length.
Qed.

(** A range without nil elements, position by position. *)
Lemma no_nil_sub_slice s bgn end_ :
  0 <= bgn ->
  no_nil (sub_slice s bgn end_) <->
  forall j x, bgn <= j < end_ -> index s j = Some x -> is_nil x = false.
Proof.
  intros Hb. unfold no_nil. rewrite Forall_lookup. split.
  - intros Hnn j x Hj Hx. apply (Hnn (Z.to_nat (j - bgn))).
    rewrite sub_slice_lookup by done. rewrite decide_True by lia.
    unfold index in Hx. rewrite (proj2 (Z.leb_le 0 j)) in Hx by lia.
    rewrite <- Hx. f_equal. lia.
  - intros Hnn k x Hx. rewrite sub_slice_lookup in Hx by done.
    case_decide as Hk; [|done].
    apply (Hnn (bgn + Z.of_nat k)); [lia|].
    unfold index. rewrite (proj2 (Z.leb_le 0 _)) by lia.
    rewrite <- Hx. f_equal. lia.
Qed.

Lemma no_nil_sub_slice_narrow s bgn bgn' end_ :
  0 <= bgn <= bgn' ->
  no_nil (sub_slice s bgn end_) -> no_nil (sub_slice s bgn' end_).
Proof.
  intros Hb. rewrite !no_nil_sub_slice by lia.
  intros Hnn j x Hj Hx. apply (Hnn j); [lia|done].
Qed.

(** The claim's way of saying that a range is in order, and ours. *)
Lemma nondecreasing_sub_slice s bgn end_ :
  0 <= bgn -> end_ <= Z.of_nat (length s) ->
  nondecreasing (MKS (DynSlice s) f) bgn end_ <->
  sorted_adj f (sub_slice s bgn end_).
Proof.
  intros Hb He. rewrite sorted_adj_lookup. unfold nondecreasing.
  cbn [Less multiKeySorter_Sortable]. unfold mks_Less. cbn [coll lesser].
  split.
  - intros Hnd i x y Hx Hy.
    rewrite sub_slice_lookup in Hx, Hy by done.
    case_decide as Hi1; [|done]. case_decide as Hi2; [|done].
    specialize (Hnd (bgn + Z.of_nat i) ltac:(lia) ltac:(lia)).
    unfold index in Hnd.
    rewrite (proj2 (Z.leb_le 0 _)) in Hnd by lia.
    rewrite (proj2 (Z.leb_le 0 _)) in Hnd by lia.
    replace (Z.to_nat (bgn + Z.of_nat i + 1)) with (Z.to_nat bgn + S i)%nat in Hnd by lia.
    replace (Z.to_nat (bgn + Z.of_nat i)) with (Z.to_nat bgn + i)%nat in Hnd by lia.
    rewrite Hx, Hy in Hnd. congruence.
  - intros Hs k Hk1 Hk2.
    destruct (index_inrange s (k + 1) ltac:(lia)) as [y Hy].
    destruct (index_inrange s k ltac:(lia)) as [x Hx].
    rewrite Hy, Hx. f_equal.
    apply (Hs (Z.to_nat (k - bgn)) x y).
    + rewrite sub_slice_lookup by done. rewrite decide_True by lia.
      unfold index in Hx. rewrite (proj2 (Z.leb_le 0 _)) in Hx by lia.
      rewrite <- Hx. f_equal. lia.
    + rewrite sub_slice_lookup by done. rewrite decide_True by lia.
      unfold index in Hy. rewrite (proj2 (Z.leb_le 0 _)) in Hy by lia.
      rewrite <- Hy. f_equal. lia.
Qed.

End Ranges.

Section InsertionTop.
Context {A : Type} `{Element A} (f : A -> A -> bool).
Implicit Types (s mid : list A).
Import GoInt GoIntFacts.

(** [Insertion] on a valid range of a slice. *)
Lemma Insertion_spec s bgn end_ :
  0 <= bgn <= end_ -> end_ <= Z.of_nat (length s) -> is_int end_ ->
  no_nil (sub_slice s bgn end_) ->
  exists mid t,
    Insertion bgn end_ (MKS (DynSlice s) f)
      = Run (Done tt)
          (MKS (DynSlice (take (Z.to_nat bgn) s ++ mid ++ drop (Z.to_nat end_) s)) f) t /\
    mid ≡ₚ sub_slice s bgn end_ /\
    (asymmetric f -> sorted_adj f mid) /\
    (sorted_adj f (sub_slice s bgn end_) ->
       mid = sub_slice s bgn end_ /\ exchanges t = []) /\
    Forall (call_within bgn end_) t.
Proof.
  intros Hb He Hint Hnn.
  set (pre := take (Z.to_nat bgn) s).
  set (U := sub_slice s bgn end_).
  set (post := drop (Z.to_nat end_) s).
  assert (Hpre : Z.of_nat (length pre) = bgn).
  { unfold pre. rewrite length_take. lia. }
  assert (HU : Z.of_nat (length U) = end_ - bgn).
  { by apply sub_slice_length. }
  destruct (insertion_loop_spec f (S (Z.to_nat (end_ - bgn))) pre [] U post)
    as (mid & t & Hrun & Hperm & Hsorted & Hidle & Hin).
  { cbn [length]. rewrite Hpre, HU.
    unfold is_int, min_int, max_int in *. lia. }
  { lia. }
  { exact Hnn. }
  cbn [length] in Hrun, Hin. simpl app in Hrun, Hperm, Hidle.
  rewrite Hpre, HU in Hrun, Hin. change (Z.of_nat 0) with 0 in Hrun, Hin.
  replace (bgn + 0 + (end_ - bgn)) with end_ in Hrun, Hin by lia.
  replace (bgn + 0) with bgn in Hrun by lia.
  exists mid, t. split; [|split; [|split; [|split]]].
  - unfold Insertion. rewrite (slice_split s bgn end_ Hb He) at 1. exact Hrun.
  - exact Hperm.
  - intros Hasym. by apply Hsorted.
  - exact Hidle.
  - exact Hin.
Qed.

End InsertionTop.

(** On a range that is in order, each inner loop of [Insertion] ends at
    its first comparison: nothing is exchanged, on any collection. *)
Section InsertionIdle.
Context {C : Type} `{Sortable C}.
Import GoInt GoIntFacts.

Lemma insertion_loop_idle bgn end_ (c : C) fuel : forall i,
  bgn <= i -> is_int bgn -> is_int end_ ->
  nondecreasing c bgn end_ ->
  (Z.to_nat (end_ - i) < fuel)%nat ->
  exists t,
    insertion_loop fuel bgn end_ i c = Run (Done tt) c t /\
    exchanges t = [].
Proof.
  induction fuel as [|fuel IH]; intros i Hi Hib Hie Hnd Hfuel; [lia|].
  destruct (Z_lt_le_dec i end_) as [Hlt|Hge].
  - assert (Hadd : add i 1 = i + 1).
    { apply add_small. unfold is_int, min_int, max_int in *. lia. }
    destruct (IH (i + 1)) as (t2 & Hloop & Hex2); [lia|done|done|done|lia|].
    rewrite insertion_loop_step by done. rewrite Hadd.
    destruct (Z.eq_dec i bgn) as [-> | Hne].
    + exists ([] ++ t2). split; [|done].
      eapply bind_Done_run; [|exact Hloop].
      apply insertion_sift_exit. lia.
    + assert (Hsub : sub i 1 = i - 1).
      { apply sub_small. unfold is_int, min_int, max_int in *. lia. }
      pose proof (Hnd (i - 1) ltac:(lia) ltac:(lia)) as Hless.
      replace (i - 1 + 1) with i in Hless by lia.
      exists ([CallLess i (i - 1)] ++ t2). split; [|done].
      eapply bind_Done_run; [|exact Hloop].
      cbn [insertion_sift]. destruct (Z.gtb_spec i bgn) as [_|Hle]; [|lia].
      rewrite Hsub. unfold bind, less. rewrite Hless. reflexivity.
  - exists []. split; [|done]. by rewrite insertion_loop_exit by lia.
Qed.

End InsertionIdle.

(** ** What holds for every collection *)
Section Generic.
Context {C : Type} `{Sortable C}.
Import GoInt GoIntFacts.

Lemma safe_ret {X} P (Q : X -> Prop) (x : X) (c : C) : Q x -> safe P Q (ret x c).
Proof. intros HQ. split; [done | constructor]. Qed.

Lemma safe_less P (Q : bool -> Prop) i j c :
  P (CallLess i j) -> (forall b, Q b) -> safe P Q (less i j c).
Proof.
  intros HP HQ. unfold less.
  destruct (Less c i j); (split; [simpl; auto | by repeat constructor]).
Qed.

Lemma safe_exchange P (Q : unit -> Prop) i j c :
  P (CallExchange i j) -> Q tt -> safe P Q (exchange i j c).
Proof.
  intros HP HQ. unfold exchange.
  destruct (Exchange c i j); (split; [simpl; auto | by repeat constructor]).
Qed.

Lemma safe_bind {X Y} P (Q1 : X -> Prop) (Q : Y -> Prop)
    (m : M C X) (k : X -> M C Y) c :
  safe P Q1 (m c) ->
  (forall x, Q1 x -> safe P Q (k x (final (m c)))) ->
  safe P Q (bind m k c).
Proof.
  intros [Hr Hc] Hk. unfold bind. destruct (result (m c)) as [x| |] eqn:Hres.
  - destruct (Hk x Hr) as [Hr' Hc']. split; [done|]. cbn [calls].
    apply Forall_app. by split.
  - by split.
  - done.
Qed.

Lemma safe_mono {X} (P P' : call -> Prop) (Q Q' : X -> Prop) (r : run C X) :
  (forall e, P e -> P' e) -> (forall x, Q x -> Q' x) ->
  safe P Q r -> safe P' Q' r.
Proof.
  intros HP HQ [Hr Hc]. split; [|by eapply Forall_impl].
  destruct (result r); auto.
Qed.

Lemma safe_not_diverge {X} P (Q : X -> Prop) (r : run C X) :
  safe P Q r -> result r <> OutOfFuel /\ Forall P (calls r).
Proof. intros [Hr Hc]. split; [|done]. by destruct (result r). Qed.

Lemma wrap_is_int z : is_int (wrap z).
Proof.
  unfold is_int, wrap, min_int, max_int, modulus.
  pose proof (Z.mod_pos_bound (z - -9223372036854775808)
                18446744073709551616 ltac:(lia)). lia.
Qed.

Notation any := (fun _ => True).

(** *** Shell *)

Lemma shell_sift_safe fuel : forall h j c,
  1 <= h -> is_int j -> (Z.to_nat j < fuel)%nat ->
  safe (call_within 0 (j + 1)) any (shell_sift fuel h j c).
Proof.
  induction fuel as [|fuel IH]; intros h j c Hh Hj Hfuel; [lia|].
  cbn [shell_sift]. destruct (Z.geb_spec j h) as [Hge|Hlt]; [|by apply safe_ret].
  assert (Hsub : sub j h = j - h).
  { apply sub_small. unfold is_int, min_int, max_int in *. lia. }
  rewrite Hsub. apply (safe_bind _ any).
  - apply safe_less; [simpl; lia | done].
  - intros [|] _; [|by apply safe_ret]. apply (safe_bind _ any).
    + apply safe_exchange; [simpl; lia | done].
    + intros _ _. eapply safe_mono; [| |apply IH].
      * intros e. apply call_within_mono; lia.
      * done.
      * done.
      * unfold is_int, min_int, max_int in *. lia.
      * lia.
Qed.

Lemma shell_pass_safe fuel : forall n h i c,
  1 <= h -> 0 <= i -> is_int n -> (Z.to_nat (n - i) < fuel)%nat ->
  safe (call_within 0 n) any (shell_pass fuel n h i c).
Proof.
  induction fuel as [|fuel IH]; intros n h i c Hh Hi Hn Hfuel; [lia|].
  cbn [shell_pass]. destruct (Z.ltb_spec i n) as [Hlt|Hge]; [|by apply safe_ret].
  assert (Hadd : add i 1 = i + 1).
  { apply add_small. unfold is_int, min_int, max_int in *. lia. }
  rewrite Hadd. apply (safe_bind _ any).
  - eapply safe_mono; [| |apply shell_sift_safe].
    + intros e. apply call_within_mono; lia.
    + done.
    + done.
    + unfold is_int, min_int, max_int in *. lia.
    + lia.
  - intros _ _. apply IH; [done|lia|done|lia].
Qed.

Lemma quot3_lt h : 1 <= h -> is_int h -> 0 <= quot h 3 < h /\ is_int (quot h 3).
Proof.
  intros Hh Hint. rewrite quot3_nonneg by (done || lia).
  pose proof (Z.div_pos h 3 ltac:(lia) ltac:(lia)).
  pose proof (Z.div_lt h 3 ltac:(lia) ltac:(lia)).
  unfold is_int, min_int, max_int in *. lia.
Qed.

Lemma shell_gaps_safe fuel : forall n h c,
  is_int n -> is_int h -> (Z.to_nat h < fuel)%nat ->
  safe (call_within 0 n) any (shell_gaps fuel n h c).
Proof.
  induction fuel as [|fuel IH]; intros n h c Hn Hh Hfuel; [lia|].
  cbn [shell_gaps]. destruct (Z.geb_spec h 1) as [Hge|Hlt]; [|by apply safe_ret].
  destruct (quot3_lt h Hge Hh) as [Hq Hqint].
  apply (safe_bind _ any).
  - apply shell_pass_safe; [lia|lia|done|lia].
  - intros _ _. apply IH; [done|done|lia].
Qed.

End Generic.

Section GenericTop.
Context {C : Type} `{Sortable C}.
Import GoInt GoIntFacts.

Notation any := (fun _ => True).

Lemma gap_seq_ge_index m : Z.of_nat m + 1 <= gap_seq m.
Proof. induction m as [|m IH]; [simpl; lia|]. rewrite Nat2Z.inj_succ. simpl. lia. Qed.

Lemma quot3_neg n : n < 0 -> is_int n -> quot n 3 <= 0.
Proof.
  intros Hn Hint. rewrite quot3_small by done.
  pose proof (Z.quot_opp_l n 3 ltac:(lia)) as Ho.
  pose proof (Z.quot_pos (- n) 3 ltac:(lia) ltac:(lia)) as Hp.
  generalize dependent (n ÷ 3). generalize dependent (- n ÷ 3). intros. lia.
Qed.

(** The increment [Shell] starts with is 1, or lies within the range. *)
Lemma shell_gap_result n :
  is_int n ->
  exists m,
    shell_gap (S (Z.to_nat n)) n 1 = Some (gap_seq m) /\
    1 <= gap_seq m <= Z.max 1 n.
Proof.
  intros Hn.
  destruct (shell_gap_least n Hn) as (m & Hrun & _).
  destruct (shell_gap_from (S (Z.to_nat n)) n 0 Hn) as (m' & Hrun' & _ & _ & Hall).
  - intros k Hk. lia.
  - cbn [gap_seq]. destruct (Z_lt_le_dec n 0) as [Hneg|Hpos].
    + pose proof (quot3_neg n Hneg Hn). lia.
    + rewrite quot3_nonneg by done.
      pose proof (Z.div_le_upper_bound n 3 n ltac:(lia) ltac:(lia)). lia.
  - cbn [gap_seq] in Hrun'. rewrite Hrun in Hrun'. injection Hrun' as Hmm.
    exists m. split; [done|]. pose proof (gap_seq_pos m). split; [done|].
    rewrite Hmm. destruct m' as [|k]; [simpl; lia|].
    specialize (Hall k ltac:(lia)).
    destruct (Z_lt_le_dec n 0) as [Hneg|Hpos].
    + pose proof (quot3_neg n Hneg Hn). pose proof (gap_seq_pos k). lia.
    + rewrite quot3_nonneg in Hall by done.
      pose proof (Z.mul_div_le n 3 ltac:(lia)).
      cbn [gap_seq]. generalize dependent (n / 3). intros. lia.
Qed.

Lemma Shell_safe bgn end_ c :
  safe (call_within 0 (sub end_ bgn)) any (Shell bgn end_ c).
Proof.
  unfold Shell. set (n := sub end_ bgn).
  assert (Hn : is_int n) by apply wrap_is_int.
  destruct (shell_gap_result n Hn) as (m & Hrun & Hbound).
  rewrite Hrun. cbn [lift_gap].
  apply (safe_bind _ (fun h => h = gap_seq m)).
  - by apply safe_ret.
  - intros h ->. apply shell_gaps_safe; [done| |lia].
    unfold is_int, min_int, max_int in *. lia.
Qed.

(** *** Selection *)

Lemma selection_scan_safe fuel : forall lo end_ j min c,
  is_int end_ -> is_int lo -> lo <= min < j -> j <= end_ ->
  (Z.to_nat (end_ - j) < fuel)%nat ->
  safe (call_within lo end_) (fun m => lo <= m < end_)
    (selection_scan fuel end_ j min c).
Proof.
  induction fuel as [|fuel IH]; intros lo end_ j min c He Hlo Hmin Hj Hfuel; [lia|].
  cbn [selection_scan].
  destruct (Z.ltb_spec j end_) as [Hlt|Hge]; [|apply safe_ret; lia].
  assert (Hadd : add j 1 = j + 1).
  { apply add_small. unfold is_int, min_int, max_int in *. lia. }
  rewrite Hadd. apply (safe_bind _ any).
  - apply safe_less; [simpl; lia | done].
  - intros [|] _; [|apply safe_ret; lia].
    apply IH; [done|done|lia|lia|lia].
Qed.

Lemma selection_loop_safe fuel : forall lo end_ i c,
  is_int end_ -> is_int lo -> lo <= i ->
  (Z.to_nat (end_ - i) < fuel)%nat ->
  safe (call_within lo end_) any (selection_loop fuel end_ i c).
Proof.
  induction fuel as [|fuel IH]; intros lo end_ i c He Hlo Hi Hfuel; [lia|].
  cbn [selection_loop].
  destruct (Z.ltb_spec i end_) as [Hlt|Hge]; [|by apply safe_ret].
  assert (Hadd : add i 1 = i + 1).
  { apply add_small. unfold is_int, min_int, max_int in *. lia. }
  rewrite Hadd. apply (safe_bind _ (fun m => lo <= m < end_)).
  - apply selection_scan_safe; [done|done|lia|lia|lia].
  - intros m Hm. apply (safe_bind _ any).
    + apply safe_exchange; [simpl; lia | done].
    + intros _ _. apply IH; [done|done|lia|lia].
Qed.

Lemma Selection_safe bgn end_ c :
  is_int bgn -> is_int end_ ->
  safe (call_within bgn end_) any (Selection bgn end_ c).
Proof.
  intros Hb He. unfold Selection. apply selection_loop_safe; [done|done|lia|lia].
Qed.

(** *** Insertion *)

Lemma insertion_sift_safe fuel : forall bgn j c,
  is_int bgn -> is_int j -> (Z.to_nat (j - bgn) < fuel)%nat ->
  safe (call_within bgn (j + 1)) any (insertion_sift fuel bgn j c).
Proof.
  induction fuel as [|fuel IH]; intros bgn j c Hb Hj Hfuel; [lia|].
  cbn [insertion_sift].
  destruct (Z.gtb_spec j bgn) as [Hgt|Hle]; [|by apply safe_ret].
  assert (Hsub : sub j 1 = j - 1).
  { apply sub_small. unfold is_int, min_int, max_int in *. lia. }
  rewrite Hsub. apply (safe_bind _ any).
  - apply safe_less; [simpl; lia | done].
  - intros [|] _; [|by apply safe_ret]. apply (safe_bind _ any).
    + apply safe_exchange; [simpl; lia | done].
    + intros _ _. eapply safe_mono; [| |apply IH].
      * intros e. apply call_within_mono; lia.
      * done.
      * done.
      * unfold is_int, min_int, max_int in *. lia.
      * lia.
Qed.

Lemma insertion_loop_safe fuel : forall bgn end_ i c,
  is_int bgn -> is_int end_ -> bgn <= i ->
  (Z.to_nat (end_ - i) < fuel)%nat ->
  safe (call_within bgn end_) any (insertion_loop fuel bgn end_ i c).
Proof.
  induction fuel as [|fuel IH]; intros bgn end_ i c Hb He Hi Hfuel; [lia|].
  cbn [insertion_loop].
  destruct (Z.ltb_spec i end_) as [Hlt|Hge]; [|by apply safe_ret].
  assert (Hadd : add i 1 = i + 1).
  { apply add_small. unfold is_int, min_int, max_int in *. lia. }
  rewrite Hadd. apply (safe_bind _ any).
  - eapply safe_mono; [| |apply insertion_sift_safe].
    + intros e. apply call_within_mono; lia.
    + done.
    + done.
    + unfold is_int, min_int, max_int in *. lia.
    + lia.
  - intros _ _. apply IH; [done|done|lia|lia].
Qed.

Lemma Insertion_safe bgn end_ c :
  is_int bgn -> is_int end_ ->
  safe (call_within bgn end_) any (Insertion bgn end_ c).
Proof.
  intros Hb He. unfold Insertion. apply insertion_loop_safe; [done|done|lia|lia].
Qed.

End GenericTop.

(** ** Shell sort on a slice *)
Section ShellEqInsertion.
Context {C : Type} `{Sortable C}.
Import GoInt GoIntFacts.

Lemma bind_ext {X Y} (m m' : M C X) (k k' : X -> M C Y) c :
  (forall c, m c = m' c) -> (forall x c, k x c = k' x c) ->
  bind m k c = bind m' k' c.
Proof.
  intros Hm Hk. unfold bind. rewrite Hm.
  destruct (result (m' c)); [by rewrite Hk | done | done].
Qed.

(** With increment 1, the inner loop of [Shell] is that of [Insertion]
    on a range that starts at 0 ... *)
Lemma shell_sift_one fuel : forall j c,
  shell_sift fuel 1 j c = insertion_sift fuel 0 j c.
Proof.
  induction fuel as [|fuel IH]; intros j c; [done|].
  cbn [shell_sift insertion_sift].
  destruct (Z.geb_spec j 1), (Z.gtb_spec j 0); try lia; [|done].
  apply bind_ext; [done|]. intros [|] c'; [|done].
  apply bind_ext; [done|]. intros _ c''. apply IH.
Qed.

(** ... and so is its middle loop. *)
Lemma shell_pass_one fuel : forall n i c,
  shell_pass fuel n 1 i c = insertion_loop fuel 0 n i c.
Proof.
  induction fuel as [|fuel IH]; intros n i c; [done|].
  cbn [shell_pass insertion_loop]. destruct (i <? n); [|done].
  rewrite Z.sub_0_r. apply bind_ext.
  - intros c'. apply shell_sift_one.
  - intros _ c'. apply IH.
Qed.

End ShellEqInsertion.

Section PrefixReordered.
Context {A : Type} `{Element A}.
Implicit Types (s : list A).

Lemma prefix_reordered_refl n s : prefix_reordered n s s.
Proof. by repeat split. Qed.

Lemma prefix_reordered_trans n s1 s2 s3 :
  prefix_reordered n s1 s2 -> prefix_reordered n s2 s3 -> prefix_reordered n s1 s3.
Proof.
  intros (Hl1 & Hp1 & Hd1) (Hl2 & Hp2 & Hd2). split; [congruence|].
  split; [by rewrite Hp2 | congruence].
Qed.

Lemma prefix_reordered_Permutation n s s' : prefix_reordered n s s' -> s' ≡ₚ s.
Proof.
  intros (_ & Hp & Hd).
  rewrite <- (take_drop n s'), <- (take_drop n s). by rewrite Hp, Hd.
Qed.

Lemma prefix_reordered_no_nil n s s' :
  prefix_reordered n s s' -> no_nil (take n s) -> no_nil (take n s').
Proof. intros (_ & Hp & _). unfold no_nil. by rewrite Hp. Qed.

Lemma no_nil_index (n : nat) s j x :
  no_nil (take n s) -> 0 <= j < Z.of_nat n -> index s j = Some x ->
  is_nil x = false.
Proof.
  unfold no_nil, index. intros Hnn Hj Hx.
  rewrite (proj2 (Z.leb_le 0 j)) in Hx by lia.
  rewrite Forall_lookup in Hnn. apply (Hnn (Z.to_nat j)).
  by rewrite lookup_take_lt by lia.
Qed.

Lemma swap_prefix_reordered (n : nat) s i j s' :
  swap s i j = Returned s' ->
  0 <= i < Z.of_nat n -> 0 <= j < Z.of_nat n ->
  prefix_reordered n s s'.
Proof.
  unfold swap. intros Hs Hi Hj.
  destruct (index s i) as [x|] eqn:Hx; [|done].
  destruct (index s j) as [y|] eqn:Hy; [|done].
  destruct (is_nil y); [done|]. cbv zeta in Hs. destruct (is_nil x); [done|].
  injection Hs as <-.
  unfold index in Hx, Hy.
  rewrite (proj2 (Z.leb_le 0 _)) in Hx by lia.
  rewrite (proj2 (Z.leb_le 0 _)) in Hy by lia.
  split; [by rewrite !length_insert|]. split.
  - rewrite !take_insert_lt by lia.
    apply Permutation_insert_swap; by rewrite lookup_take_lt by lia.
  - by rewrite !drop_insert_lt by lia.
Qed.

End PrefixReordered.

Section ShellSlice.
Context {A : Type} `{Element A} (f : A -> A -> bool).
Implicit Types (s : list A).
Import GoInt GoIntFacts.

(** The inner loop of [Shell] inside a prefix of a slice: it returns and
    only reorders the prefix. *)
Lemma shell_sift_slice (n h : Z) fuel : forall s j,
  1 <= h -> 0 <= j < n -> n <= Z.of_nat (length s) -> is_int n ->
  (Z.to_nat j < fuel)%nat ->
  no_nil (take (Z.to_nat n) s) ->
  exists s' t,
    shell_sift fuel h j (MKS (DynSlice s) f) = Run (Done tt) (MKS (DynSlice s') f) t /\
    prefix_reordered (Z.to_nat n) s s'.
Proof.
  induction fuel as [|fuel IH]; intros s j Hh Hj Hn Hint Hfuel Hnn; [lia|].
  cbn [shell_sift]. destruct (Z.geb_spec j h) as [Hge|Hlt].
  - assert (Hsub : sub j h = j - h).
    { apply sub_small. unfold is_int, min_int, max_int in *. lia. }
    rewrite Hsub.
    destruct (index_inrange s j ltac:(lia)) as [x Hx].
    destruct (index_inrange s (j - h) ltac:(lia)) as [y Hy].
    destruct (f x y) eqn:Hxy.
    + assert (Hswap : swap s j (j - h)
                = Returned (<[Z.to_nat (j - h) := x]> (<[Z.to_nat j := y]> s))).
      { apply swap_inside; [done|done| |].
        - apply (no_nil_index (Z.to_nat n) s j); [done|lia|done].
        - apply (no_nil_index (Z.to_nat n) s (j - h)); [done|lia|done]. }
      pose proof (swap_prefix_reordered (Z.to_nat n) s j (j - h) _ Hswap
                    ltac:(lia) ltac:(lia)) as Hre.
      destruct (IH (<[Z.to_nat (j - h) := x]> (<[Z.to_nat j := y]> s)) (j - h))
        as (s' & t & Hrun & Hre').
      { done. } { lia. } { rewrite !length_insert. lia. } { done. } { lia. }
      { by eapply prefix_reordered_no_nil. }
      exists s', ([CallLess j (j - h)] ++ [CallExchange j (j - h)] ++ t).
      split; [|by eapply prefix_reordered_trans].
      eapply bind_Done_run; [by apply less_run|]. rewrite Hxy.
      eapply bind_Done_run; [by apply exchange_run|]. exact Hrun.
    + exists s, ([CallLess j (j - h)] ++ []).
      split; [|apply prefix_reordered_refl].
      eapply bind_Done_run; [by apply less_run|]. by rewrite Hxy.
  - exists s, []. split; [done | apply prefix_reordered_refl].
Qed.

(** The middle loop of [Shell]. *)
Lemma shell_pass_slice (n h : Z) fuel : forall s i,
  1 <= h -> 0 <= i -> n <= Z.of_nat (length s) -> is_int n ->
  (Z.to_nat (n - i) < fuel)%nat ->
  no_nil (take (Z.to_nat n) s) ->
  exists s' t,
    shell_pass fuel n h i (MKS (DynSlice s) f) = Run (Done tt) (MKS (DynSlice s') f) t /\
    prefix_reordered (Z.to_nat n) s s'.
Proof.
  induction fuel as [|fuel IH]; intros s i Hh Hi Hn Hint Hfuel Hnn; [lia|].
  destruct (Z_lt_le_dec i n) as [Hlt|Hge].
  - assert (Hadd : add i 1 = i + 1).
    { apply add_small. unfold is_int, min_int, max_int in *. lia. }
    destruct (shell_sift_slice n h (S (Z.to_nat i)) s i) as (s1 & t1 & Hrun1 & Hre1);
      [done|lia|done|done|lia|done|].
    destruct (IH s1 (i + 1)) as (s' & t2 & Hrun2 & Hre2);
      [done|lia| |done|lia| |].
    { destruct Hre1 as [Hl _]. lia. }
    { by eapply prefix_reordered_no_nil. }
    exists s', (t1 ++ t2). split; [|by eapply prefix_reordered_trans].
    rewrite shell_pass_step by done. rewrite Hadd.
    eapply bind_Done_run; [exact Hrun1 | exact Hrun2].
  - exists s, []. split; [|apply prefix_reordered_refl].
    by rewrite shell_pass_exit by lia.
Qed.

End ShellSlice.

Section ShellTop.
Context {A : Type} `{Element A} (f : A -> A -> bool).
Implicit Types (s : list A).
Import GoInt GoIntFacts.

(** The pass with increment 1 puts the prefix in order, and leaves a
    prefix that is in order untouched. *)
Lemma shell_last_pass s n :
  0 <= n -> n <= Z.of_nat (length s) -> is_int n ->
  no_nil (take (Z.to_nat n) s) ->
  exists s' t,
    shell_pass (S (Z.to_nat (n - 1))) n 1 1 (MKS (DynSlice s) f)
      = Run (Done tt) (MKS (DynSlice s') f) t /\
    prefix_reordered (Z.to_nat n) s s' /\
    (asymmetric f -> sorted_adj f (take (Z.to_nat n) s')) /\
    (sorted_adj f (take (Z.to_nat n) s) -> s' = s /\ exchanges t = []).
Proof.
  intros H0 Hn Hint Hnn. destruct (take (Z.to_nat n) s) as [|x0 U] eqn:Hpre.
  - (* empty range *)
    assert (n = 0) as ->.
    { apply (f_equal length) in Hpre. rewrite length_take in Hpre.
      simpl in Hpre. lia. }
    exists s, []. split; [by rewrite shell_pass_exit by lia|].
    split; [apply prefix_reordered_refl|]. by split.
  - assert (HlenU : Z.of_nat (length U) = n - 1).
    { apply (f_equal length) in Hpre. rewrite length_take in Hpre.
      simpl in Hpre. lia. }
    assert (Hs : s = [] ++ [x0] ++ U ++ drop (Z.to_nat n) s).
    { rewrite <- (take_drop (Z.to_nat n) s) at 1. by rewrite Hpre. }
    destruct (insertion_loop_spec f (S (Z.to_nat (n - 1))) [] [x0] U
                (drop (Z.to_nat n) s))
      as (S' & t & Hrun & Hperm & Hsorted & Hidle & _).
    { cbn [length]. rewrite HlenU.
      unfold is_int, min_int, max_int in *. lia. }
    { lia. }
    { exact Hnn. }
    cbn [length] in Hrun. rewrite HlenU in Hrun.
    change (Z.of_nat 0) with 0 in Hrun. change (Z.of_nat 1) with 1 in Hrun.
    replace (0 + 1 + (n - 1)) with n in Hrun by lia.
    change (0 + 1) with 1 in Hrun.
    rewrite <- Hs in Hrun. simpl app in Hrun, Hperm, Hidle.
    assert (HlenS : length S' = Z.to_nat n).
    { rewrite Hperm. simpl. lia. }
    exists (S' ++ drop (Z.to_nat n) s), t. split; [|split; [|split]].
    + rewrite shell_pass_one. exact Hrun.
    + split; [|split].
      * rewrite length_app, length_drop. lia.
      * rewrite take_app_length' by done. by rewrite Hperm, Hpre.
      * by rewrite drop_app_length' by done.
    + intros Hasym. rewrite take_app_length' by done. by apply Hsorted.
    + intros Hsd. destruct (Hidle Hsd) as [-> Hex]. split; [|done].
      rewrite <- Hpre. apply take_drop.
Qed.

(** The outer loop of [Shell], started at the [m]-th increment. *)
Lemma shell_gaps_slice n : forall m fuel s,
  (S m < fuel)%nat -> is_int (gap_seq m) ->
  0 <= n -> n <= Z.of_nat (length s) -> is_int n ->
  no_nil (take (Z.to_nat n) s) ->
  exists s' t,
    shell_gaps fuel n (gap_seq m) (MKS (DynSlice s) f)
      = Run (Done tt) (MKS (DynSlice s') f) t /\
    prefix_reordered (Z.to_nat n) s s' /\
    (asymmetric f -> sorted_adj f (take (Z.to_nat n) s')).
Proof.
  induction m as [|m IH]; intros fuel s Hfuel Hgint H0 Hn Hint Hnn.
  - destruct fuel as [|[|fuel]]; [lia|lia|].
    destruct (shell_last_pass s n H0 Hn Hint Hnn) as (s' & t & Hrun & Hre & Hsorted & _).
    exists s', (t ++ []). split; [|by split].
    cbn [gap_seq]. rewrite shell_gaps_step by lia.
    eapply bind_Done_run; [exact Hrun|].
    change (quot 1 3) with 0. by rewrite shell_gaps_exit by lia.
  - destruct fuel as [|fuel]; [lia|].
    pose proof (gap_seq_pos (S m)) as Hpos.
    pose proof (gap_seq_step m) as Hstep.
    pose proof (gap_seq_pos m) as Hpos'.
    destruct (shell_pass_slice f n (gap_seq (S m)) (S (Z.to_nat (n - gap_seq (S m))))
                s (gap_seq (S m))) as (s1 & t1 & Hrun1 & Hre1);
      [lia|lia|done|done|lia|done|].
    destruct (IH fuel s1) as (s' & t2 & Hrun2 & Hre2 & Hsorted).
    { lia. }
    { unfold is_int, min_int, max_int in *. lia. }
    { done. }
    { destruct Hre1 as [Hl _]. lia. }
    { done. }
    { by eapply prefix_reordered_no_nil. }
    exists s', (t1 ++ t2). split; [|split; [by eapply prefix_reordered_trans | done]].
    rewrite shell_gaps_step by lia.
    eapply bind_Done_run; [exact Hrun1|].
    rewrite quot3_small by done. rewrite gap_seq_quot. exact Hrun2.
Qed.

(** [Shell] over a range that starts at 0. *)
Lemma Shell_zero_spec s n :
  0 <= n -> n <= Z.of_nat (length s) -> is_int n ->
  no_nil (take (Z.to_nat n) s) ->
  exists s' t,
    Shell 0 n (MKS (DynSlice s) f) = Run (Done tt) (MKS (DynSlice s') f) t /\
    prefix_reordered (Z.to_nat n) s s' /\
    (asymmetric f -> sorted_adj f (take (Z.to_nat n) s')).
Proof.
  intros H0 Hn Hint Hnn. unfold Shell.
  assert (Hsub : sub n 0 = n).
  { rewrite sub_small; [lia|]. by rewrite Z.sub_0_r. }
  rewrite Hsub.
  destruct (shell_gap_result n Hint) as (m & Hgap & Hbound).
  rewrite Hgap. cbn [lift_gap].
  pose proof (gap_seq_ge_index m) as Hidx.
  destruct (shell_gaps_slice n m (S (Z.to_nat (gap_seq m))) s)
    as (s' & t & Hrun & Hre & Hsorted).
  { lia. }
  { unfold is_int, min_int, max_int in *. lia. }
  { done. } { done. } { done. } { done. }
  exists s', ([] ++ t). split; [|by split].
  eapply bind_Done_run; [reflexivity | exact Hrun].
Qed.

End ShellTop.

(** ** Selection on a slice *)
Section SelectionSlice.
Context {A : Type} `{Element A} (f : A -> A -> bool).
Implicit Types (s : list A).
Import GoInt GoIntFacts.

Lemma range_reordered_refl bgn end_ s : range_reordered bgn end_ s s.
Proof. by repeat split. Qed.

Lemma range_reordered_trans bgn end_ s1 s2 s3 :
  range_reordered bgn end_ s1 s2 -> range_reordered bgn end_ s2 s3 ->
  range_reordered bgn end_ s1 s3.
Proof.
  intros (Hl1 & Ht1 & Hp1 & Hd1) (Hl2 & Ht2 & Hp2 & Hd2).
  split; [congruence|]. split; [congruence|].
  split; [by rewrite Hp2 | congruence].
Qed.

Lemma range_reordered_no_nil bgn end_ s s' :
  range_reordered bgn end_ s s' ->
  no_nil (sub_slice s bgn end_) -> no_nil (sub_slice s' bgn end_).
Proof. intros (_ & _ & Hp & _). unfold no_nil. by rewrite Hp. Qed.

Lemma swap_range_reordered bgn end_ s i j s' :
  swap s i j = Returned s' ->
  0 <= bgn -> bgn <= i < end_ -> bgn <= j < end_ ->
  range_reordered bgn end_ s s'.
Proof.
  unfold swap. intros Hs Hb Hi Hj.
  destruct (index s i) as [x|] eqn:Hx; [|done].
  destruct (index s j) as [y|] eqn:Hy; [|done].
  destruct (is_nil y); [done|]. cbv zeta in Hs. destruct (is_nil x); [done|].
  injection Hs as <-.
  unfold index in Hx, Hy.
  rewrite (proj2 (Z.leb_le 0 _)) in Hx by lia.
  rewrite (proj2 (Z.leb_le 0 _)) in Hy by lia.
  split; [by rewrite !length_insert|]. split; [|split].
  - by rewrite !take_insert_ge by lia.
  - unfold sub_slice. rewrite !drop_insert_ge by lia.
    rewrite !take_insert_lt by lia.
    apply Permutation_insert_swap.
    + rewrite lookup_take_lt by lia. rewrite lookup_drop. rewrite <- Hx. f_equal. lia.
    + rewrite lookup_take_lt by lia. rewrite lookup_drop. rewrite <- Hy. f_equal. lia.
  - by rewrite !drop_insert_lt by lia.
Qed.

(** The scan returns a position of the range and exchanges nothing. *)
Lemma selection_scan_slice fuel : forall s end_ j min,
  0 <= min < j -> j <= end_ -> end_ <= Z.of_nat (length s) -> is_int end_ ->
  (Z.to_nat (end_ - j) < fuel)%nat ->
  exists m t,
    selection_scan fuel end_ j min (MKS (DynSlice s) f)
      = Run (Done m) (MKS (DynSlice s) f) t /\
    min <= m < end_ /\ exchanges t = [].
Proof.
  induction fuel as [|fuel IH]; intros s end_ j min Hmin Hj He Hint Hfuel; [lia|].
  destruct (Z_lt_le_dec j end_) as [Hlt|Hge].
  - cbn [selection_scan]. rewrite (proj2 (Z.ltb_lt j end_)) by done.
    assert (Hadd : add j 1 = j + 1).
    { apply add_small. unfold is_int, min_int, max_int in *. lia. }
    rewrite Hadd.
    destruct (index_inrange s j ltac:(lia)) as [x Hx].
    destruct (index_inrange s min ltac:(lia)) as [y Hy].
    destruct (f x y) eqn:Hxy.
    + destruct (IH s end_ (j + 1) j) as (m & t & Hrun & Hm & Hex);
        [lia|lia|done|done|lia|].
      exists m, ([CallLess j min] ++ t). split; [|split; [lia|]].
      * eapply bind_Done_run; [by apply less_run|]. by rewrite Hxy.
      * by rewrite exchanges_app, Hex.
    + exists min, ([CallLess j min] ++ []). split; [|split; [lia|done]].
      eapply bind_Done_run; [by apply less_run|]. by rewrite Hxy.
  - exists min, []. split; [|split; [lia|done]].
    by rewrite selection_scan_exit by lia.
Qed.

(** The outer loop: one exchange for each position still ahead. *)
Lemma selection_loop_slice bgn fuel : forall s end_ i,
  0 <= bgn <= i -> i <= end_ -> end_ <= Z.of_nat (length s) -> is_int end_ ->
  (Z.to_nat (end_ - i) < fuel)%nat ->
  no_nil (sub_slice s bgn end_) ->
  exists s' t,
    selection_loop fuel end_ i (MKS (DynSlice s) f)
      = Run (Done tt) (MKS (DynSlice s') f) t /\
    range_reordered bgn end_ s s' /\
    length (exchanges t) = Z.to_nat (end_ - i).
Proof.
  induction fuel as [|fuel IH]; intros s end_ i Hi Hie He Hint Hfuel Hnn; [lia|].
  destruct (Z_lt_le_dec i end_) as [Hlt|Hge].
  - assert (Hadd : add i 1 = i + 1).
    { apply add_small. unfold is_int, min_int, max_int in *. lia. }
    destruct (selection_scan_slice (S (Z.to_nat (end_ - (i + 1)))) s end_ (i + 1) i)
      as (m & t1 & Hscan & Hm & Hex1); [lia|lia|done|done|lia|].
    destruct (index_inrange s i ltac:(lia)) as [x Hx].
    destruct (index_inrange s m ltac:(lia)) as [y Hy].
    assert (Hswap : swap s i m = Returned (<[Z.to_nat m := x]> (<[Z.to_nat i := y]> s))).
    { pose proof (proj1 (no_nil_sub_slice s bgn end_ ltac:(lia)) Hnn) as Hnil.
      apply swap_inside; [done|done| |].
      - apply (Hnil i); [lia|done].
      - apply (Hnil m); [lia|done]. }
    pose proof (swap_range_reordered bgn end_ s i m _ Hswap
                  ltac:(lia) ltac:(lia) ltac:(lia)) as Hre1.
    destruct (IH (<[Z.to_nat m := x]> (<[Z.to_nat i := y]> s)) end_ (i + 1))
      as (s' & t2 & Hloop & Hre2 & Hex2); [lia|lia| |done|lia| |].
    { rewrite !length_insert. lia. }
    { by eapply range_reordered_no_nil. }
    exists s', (t1 ++ [CallExchange i m] ++ t2).
    split; [|split; [by eapply range_reordered_trans|]].
    + rewrite selection_loop_step by done. rewrite Hadd.
      eapply bind_Done_run; [exact Hscan|].
      eapply bind_Done_run; [by apply exchange_run | exact Hloop].
    + rewrite !exchanges_app, !length_app, Hex1, Hex2. simpl. lia.
  - exists s, []. split; [|split; [apply range_reordered_refl | simpl; lia]].
    by rewrite selection_loop_exit by lia.
Qed.

(** On a range that is in order, every scan stops at once and every
    exchange is one of a position with itself, which leaves the slice as
    it is, also when it panics on a nil element. *)
Lemma selection_loop_idle fuel : forall s end_ i,
  0 <= i -> end_ <= Z.of_nat (length s) -> is_int end_ ->
  nondecreasing (MKS (DynSlice s) f) i end_ ->
  (Z.to_nat (end_ - i) < fuel)%nat ->
  exists r t,
    selection_loop fuel end_ i (MKS (DynSlice s) f)
      = Run r (MKS (DynSlice s) f) t /\
    r <> OutOfFuel /\
    Forall self_exchange (exchanges t) /\
    (r = Done tt <-> no_nil (sub_slice s i end_)).
Proof.
  induction fuel as [|fuel IH]; intros s end_ i Hi He Hint Hnd Hfuel; [lia|].
  destruct (Z_lt_le_dec i end_) as [Hlt|Hge].
  - assert (Hadd : add i 1 = i + 1).
    { apply add_small. unfold is_int, min_int, max_int in *. lia. }
    destruct (index_inrange s i ltac:(lia)) as [x Hx].
    destruct (IH s end_ (i + 1)) as (r2 & t2 & Hloop & Hr2 & Hself & Hdone);
      [lia|done|done| |lia|].
    { intros k Hk1 Hk2. apply Hnd; lia. }
    assert (Hscan : exists t1,
      selection_scan (S (Z.to_nat (end_ - (i + 1)))) end_ (i + 1) i
          (MKS (DynSlice s) f) = Run (Done i) (MKS (DynSlice s) f) t1 /\
      exchanges t1 = []).
    { destruct (Z_lt_le_dec (i + 1) end_) as [Hlt'|Hge'].
      - exists ([CallLess (i + 1) i] ++ []). split; [|done].
        cbn [selection_scan]. rewrite (proj2 (Z.ltb_lt _ _)) by done.
        pose proof (Hnd i ltac:(lia) ltac:(lia)) as Hless.
        cbn [Less multiKeySorter_Sortable] in Hless. unfold mks_Less in Hless.
        cbn [coll lesser] in Hless.
        destruct (index s (i + 1)) as [y|] eqn:Hy; [|done].
        rewrite Hx in Hless. injection Hless as Hless.
        eapply bind_Done_run; [by apply less_run|]. by rewrite Hless.
      - exists []. split; [|done]. by rewrite selection_scan_exit by lia. }
    destruct Hscan as (t1 & Hscan & Hex1).
    rewrite selection_loop_step by done. rewrite Hadd.
    destruct (is_nil x) eqn:Hnx.
    + (* [Exchange(i, i)] panics at its first [Set], before any write *)
      exists Panic, (t1 ++ [CallExchange i i]). split; [|split; [done|split]].
      * eapply bind_Done_run; [exact Hscan|].
        unfold bind, exchange. cbn [Exchange multiKeySorter_Sortable].
        unfold mks_Exchange, swap. cbn [coll lesser]. by rewrite Hx, Hnx.
      * rewrite exchanges_app, Hex1. simpl. by constructor.
      * split; [done|]. intros Hnn.
        pose proof (proj1 (no_nil_sub_slice s i end_ Hi) Hnn i x ltac:(lia) Hx).
        congruence.
    + assert (Hswap : swap s i i = Returned s).
      { unfold swap. rewrite Hx, Hnx. cbv zeta. f_equal.
        rewrite list_insert_insert_eq. apply list_insert_id.
        unfold index in Hx. by rewrite (proj2 (Z.leb_le 0 i)) in Hx by lia. }
      exists r2, (t1 ++ [CallExchange i i] ++ t2). split; [|split; [done|split]].
      * eapply bind_Done_run; [exact Hscan|].
        eapply bind_Done_run; [by apply exchange_run | exact Hloop].
      * rewrite !exchanges_app, Hex1. simpl. by constructor.
      * rewrite Hdone. rewrite !no_nil_sub_slice by lia. split.
        -- intros Hnn j z Hj Hz. destruct (Z.eq_dec j i) as [-> | Hji].
           ++ congruence.
           ++ apply (Hnn j); [lia|done].
        -- intros Hnn j z Hj Hz. apply (Hnn j); [lia|done].
  - exists (Done tt), []. split; [|split; [done|split; [by constructor|]]].
    + by rewrite selection_loop_exit by lia.
    + split; [|done]. intros _. unfold no_nil, sub_slice.
      replace (Z.to_nat (end_ - i)) with 0%nat by lia. constructor.
Qed.

End SelectionSlice.

(** ** Shell sort on a prefix that is in order *)
Section ShellIdle.
Context {A : Type} `{Element A} (f : A -> A -> bool).
Implicit Types (s l : list A).
Import GoInt GoIntFacts.

(** Under a negatively transitive comparison, adjacent order excludes
    every inversion, not only the adjacent ones. *)
Lemma sorted_adj_no_inversion l :
  negatively_transitive f -> sorted_adj f l ->
  forall (d i : nat) x y,
    l !! i = Some x -> l !! (i + S d)%nat = Some y -> f y x = false.
Proof.
  intros Hnt Hs. rewrite sorted_adj_lookup in Hs.
  induction d as [|d IH]; intros i x y Hx Hy.
  - apply (Hs i x y Hx). by rewrite Nat.add_1_r in Hy.
  - destruct (lookup_lt_is_Some_2 l (i + S d)%nat) as [z Hz].
    { apply lookup_lt_Some in Hy. lia. }
    apply (Hnt x z y).
    + by apply (IH i x z).
    + apply (Hs (i + S d)%nat z y Hz).
      replace (S (i + S d)) with (i + S (S d))%nat by lia. done.
Qed.

Lemma sorted_adj_inversion_free n s :
  negatively_transitive f -> 0 <= n ->
  sorted_adj f (take (Z.to_nat n) s) -> inversion_free f n s.
Proof.
  intros Hnt Hn Hs a b x y Hab Hb Hx Hy. unfold index in Hx, Hy.
  rewrite (proj2 (Z.leb_le 0 _)) in Hx by lia.
  rewrite (proj2 (Z.leb_le 0 _)) in Hy by lia.
  apply (sorted_adj_no_inversion _ Hnt Hs (Z.to_nat (b - a) - 1) (Z.to_nat a) x y).
  - by rewrite lookup_take_lt by lia.
  - rewrite lookup_take_lt by lia. rewrite <- Hy. f_equal. lia.
Qed.

Lemma shell_sift_idle n h fuel s j :
  1 <= h -> 0 <= j < n -> n <= Z.of_nat (length s) -> is_int n ->
  inversion_free f n s ->
  exists t,
    shell_sift (S fuel) h j (MKS (DynSlice s) f) = Run (Done tt) (MKS (DynSlice s) f) t /\
    exchanges t = [].
Proof.
  intros Hh Hj Hn Hint Hfree. cbn [shell_sift].
  destruct (Z.geb_spec j h) as [Hge|Hlt]; [|by exists []].
  assert (Hsub : sub j h = j - h).
  { apply sub_small. unfold is_int, min_int, max_int in *. lia. }
  rewrite Hsub.
  destruct (index_inrange s j ltac:(lia)) as [x Hx].
  destruct (index_inrange s (j - h) ltac:(lia)) as [y Hy].
  pose proof (Hfree (j - h) j y x ltac:(lia) ltac:(lia) Hy Hx) as Hxy.
  exists ([CallLess j (j - h)] ++ []). split; [|done].
  eapply bind_Done_run; [by apply less_run|]. by rewrite Hxy.
Qed.

Lemma shell_pass_idle n h fuel : forall s i,
  1 <= h -> 0 <= i -> n <= Z.of_nat (length s) -> is_int n ->
  inversion_free f n s -> (Z.to_nat (n - i) < fuel)%nat ->
  exists t,
    shell_pass fuel n h i (MKS (DynSlice s) f) = Run (Done tt) (MKS (DynSlice s) f) t /\
    exchanges t = [].
Proof.
  induction fuel as [|fuel IH]; intros s i Hh Hi Hn Hint Hfree Hfuel; [lia|].
  destruct (Z_lt_le_dec i n) as [Hlt|Hge].
  - assert (Hadd : add i 1 = i + 1).
    { apply add_small. unfold is_int, min_int, max_int in *. lia. }
    destruct (shell_sift_idle n h (Z.to_nat i) s i) as (t1 & Hrun1 & Hex1);
      [done|lia|done|done|done|].
    destruct (IH s (i + 1)) as (t2 & Hrun2 & Hex2); [done|lia|done|done|done|lia|].
    exists (t1 ++ t2). split; [|by rewrite exchanges_app, Hex1, Hex2].
    rewrite shell_pass_step by done. rewrite Hadd.
    eapply bind_Done_run; [exact Hrun1 | exact Hrun2].
  - exists []. split; [|done]. by rewrite shell_pass_exit by lia.
Qed.

Lemma shell_gaps_idle n fuel : forall s h,
  is_int h -> 0 <= n -> n <= Z.of_nat (length s) -> is_int n ->
  inversion_free f n s -> (Z.to_nat h < fuel)%nat ->
  exists t,
    shell_gaps fuel n h (MKS (DynSlice s) f) = Run (Done tt) (MKS (DynSlice s) f) t /\
    exchanges t = [].
Proof.
  induction fuel as [|fuel IH]; intros s h Hh H0 Hn Hint Hfree Hfuel; [lia|].
  destruct (Z_lt_le_dec h 1) as [Hlt|Hge].
  - exists []. split; [|done]. by rewrite shell_gaps_exit by lia.
  - destruct (quot3_lt h Hge Hh) as [Hq Hqint].
    destruct (shell_pass_idle n h (S (Z.to_nat (n - h))) s h) as (t1 & Hrun1 & Hex1);
      [lia|lia|done|done|done|lia|].
    destruct (IH s (quot h 3)) as (t2 & Hrun2 & Hex2);
      [done|done|done|done|done|lia|].
    exists (t1 ++ t2). split; [|by rewrite exchanges_app, Hex1, Hex2].
    rewrite shell_gaps_step by lia.
    eapply bind_Done_run; [exact Hrun1 | exact Hrun2].
Qed.

Lemma Shell_zero_idle s n :
  negatively_transitive f ->
  0 <= n -> n <= Z.of_nat (length s) -> is_int n ->
  sorted_adj f (take (Z.to_nat n) s) ->
  exists t,
    Shell 0 n (MKS (DynSlice s) f) = Run (Done tt) (MKS (DynSlice s) f) t /\
    exchanges t = [].
Proof.
  intros Hnt H0 Hn Hint Hs. unfold Shell.
  assert (Hsub : sub n 0 = n).
  { rewrite sub_small; [lia|]. by rewrite Z.sub_0_r. }
  rewrite Hsub.
  destruct (shell_gap_result n Hint) as (m & Hgap & Hbound).
  rewrite Hgap. cbn [lift_gap].
  destruct (shell_gaps_idle n (S (Z.to_nat (gap_seq m))) s (gap_seq m))
    as (t & Hrun & Hex).
  { unfold is_int, min_int, max_int in *. lia. }
  { done. } { done. } { done. }
  { by apply sorted_adj_inversion_free. }
  { lia. }
  exists ([] ++ t). split; [|done].
  eapply bind_Done_run; [reflexivity | exact Hrun].
Qed.

End ShellIdle.

(** ** From the parts of a slice back to its ranges *)
Section Glue.
Context {A : Type} `{Element A} (f : A -> A -> bool).
Implicit Types (s mid : list A).

Lemma parts_range_reordered s bgn end_ mid :
  0 <= bgn <= end_ -> end_ <= Z.of_nat (length s) ->
  mid ≡ₚ sub_slice s bgn end_ ->
  range_reordered bgn end_ s
    (take (Z.to_nat bgn) s ++ mid ++ drop (Z.to_nat end_) s) /\
  sub_slice (take (Z.to_nat bgn) s ++ mid ++ drop (Z.to_nat end_) s) bgn end_ = mid.
Proof.
  intros Hb He Hperm.
  assert (Hlm : Z.of_nat (length mid) = end_ - bgn).
  { rewrite Hperm. by apply sub_slice_length. }
  assert (Hlp : length (take (Z.to_nat bgn) s) = Z.to_nat bgn).
  { rewrite length_take. lia. }
  assert (Hsub : sub_slice (take (Z.to_nat bgn) s ++ mid ++ drop (Z.to_nat end_) s)
                   bgn end_ = mid).
  { apply parts_sub_slice; lia. }
  split; [|done]. split; [|split; [|split]].
  - rewrite !length_app, length_take, length_drop. lia.
  - rewrite <- Hlp at 1. by rewrite parts_take.
  - by rewrite Hsub.
  - apply parts_drop. lia.
Qed.

Lemma sub_slice_from_zero s n : sub_slice s 0 n = take (Z.to_nat n) s.
Proof. unfold sub_slice. by rewrite Z.sub_0_r. Qed.


Lemma asymmetric_ltb : asymmetric Z.ltb.
Proof. intros x y Hxy. apply Z.ltb_lt in Hxy. apply Z.ltb_ge. lia. Qed.

Lemma negatively_transitive_ltb : negatively_transitive Z.ltb.
Proof.
  intros x y z Hyx Hzy. apply Z.ltb_ge in Hyx, Hzy. apply Z.ltb_ge. lia.
Qed.

End Glue.

(** ** What no run changes

    [Q true] relates a collection to the one an [Exchange] that returns
    leaves, [Q false] to the one an [Exchange] that panics leaves.  Then
    [Q] relates the collection an algorithm starts on to the one it ends
    on, according to how it ended, whatever the range. *)
Section Invariant.
Context {C : Type} `{Sortable C}.
Variable Q : bool -> C -> C -> Prop.
Hypothesis Q_refl : forall b c, Q b c c.
Hypothesis Q_trans : forall b c1 c2 c3, Q true c1 c2 -> Q b c2 c3 -> Q b c1 c3.
Hypothesis Q_returned : forall c i j c', Exchange c i j = Returned c' -> Q true c c'.
Hypothesis Q_panicked : forall c i j c', Exchange c i j = Panicked c' -> Q false c c'.

Lemma inv_ret {X} (x : X) c :
  Q (returned (result (ret x c))) c (final (ret x c)).
Proof. apply Q_refl. Qed.

Lemma inv_diverge {X} c :
  Q (returned (result (@diverge C X c))) c (final (@diverge C X c)).
Proof. apply Q_refl. Qed.

Lemma inv_less i j c :
  Q (returned (result (less i j c))) c (final (less i j c)).
Proof. unfold less. destruct (Less c i j); apply Q_refl. Qed.

Lemma inv_exchange i j c :
  Q (returned (result (exchange i j c))) c (final (exchange i j c)).
Proof.
  unfold exchange. destruct (Exchange c i j) as [c'|c'] eqn:Hx; cbn.
  - by apply (Q_returned c i j).
  - by apply (Q_panicked c i j).
Qed.

Lemma inv_bind {X Y} (m : M C X) (k : X -> M C Y) :
  (forall c, Q (returned (result (m c))) c (final (m c))) ->
  (forall x c, Q (returned (result (k x c))) c (final (k x c))) ->
  forall c, Q (returned (result (bind m k c))) c (final (bind m k c)).
Proof.
  intros Hm Hk c. unfold bind. specialize (Hm c).
  destruct (result (m c)) as [x| |]; cbn [result final returned] in *;
    [|done|done].
  eapply Q_trans; [exact Hm | apply Hk].
Qed.

Lemma selection_scan_inv fuel : forall end_ j min c,
  Q (returned (result (selection_scan fuel end_ j min c))) c
    (final (selection_scan fuel end_ j min c)).
Proof.
  induction fuel as [|fuel IH]; intros end_ j min; cbn [selection_scan];
    [apply inv_diverge|].
  destruct (j <? end_); [|apply inv_ret].
  apply inv_bind; [apply inv_less|].
  intros [|]; [apply IH | apply inv_ret].
Qed.

Lemma selection_loop_inv fuel : forall end_ i c,
  Q (returned (result (selection_loop fuel end_ i c))) c
    (final (selection_loop fuel end_ i c)).
Proof.
  induction fuel as [|fuel IH]; intros end_ i; cbn [selection_loop];
    [apply inv_diverge|].
  destruct (i <? end_); [|apply inv_ret].
  apply inv_bind; [apply selection_scan_inv|]. intros min.
  apply inv_bind; [apply inv_exchange|]. intros _. apply IH.
Qed.

Lemma insertion_sift_inv fuel : forall bgn j c,
  Q (returned (result (insertion_sift fuel bgn j c))) c
    (final (insertion_sift fuel bgn j c)).
Proof.
  induction fuel as [|fuel IH]; intros bgn j; cbn [insertion_sift];
    [apply inv_diverge|].
  destruct (j >? bgn); [|apply inv_ret].
  apply inv_bind; [apply inv_less|].
  intros [|]; [|apply inv_ret].
  apply inv_bind; [apply inv_exchange|]. intros _. apply IH.
Qed.

Lemma insertion_loop_inv fuel : forall bgn end_ i c,
  Q (returned (result (insertion_loop fuel bgn end_ i c))) c
    (final (insertion_loop fuel bgn end_ i c)).
Proof.
  induction fuel as [|fuel IH]; intros bgn end_ i; cbn [insertion_loop];
    [apply inv_diverge|].
  destruct (i <? end_); [|apply inv_ret].
  apply inv_bind; [apply insertion_sift_inv|]. intros _. apply IH.
Qed.

Lemma shell_sift_inv fuel : forall h j c,
  Q (returned (result (shell_sift fuel h j c))) c
    (final (shell_sift fuel h j c)).
Proof.
  induction fuel as [|fuel IH]; intros h j; cbn [shell_sift];
    [apply inv_diverge|].
  destruct (j >=? h); [|apply inv_ret].
  apply inv_bind; [apply inv_less|].
  intros [|]; [|apply inv_ret].
  apply inv_bind; [apply inv_exchange|]. intros _. apply IH.
Qed.

Lemma shell_pass_inv fuel : forall n h i c,
  Q (returned (result (shell_pass fuel n h i c))) c
    (final (shell_pass fuel n h i c)).
Proof.
  induction fuel as [|fuel IH]; intros n h i; cbn [shell_pass];
    [apply inv_diverge|].
  destruct (i <? n); [|apply inv_ret].
  apply inv_bind; [apply shell_sift_inv|]. intros _. apply IH.
Qed.

Lemma shell_gaps_inv fuel : forall n h c,
  Q (returned (result (shell_gaps fuel n h c))) c
    (final (shell_gaps fuel n h c)).
Proof.
  induction fuel as [|fuel IH]; intros n h; cbn [shell_gaps];
    [apply inv_diverge|].
  destruct (h >=? 1); [|apply inv_ret].
  apply inv_bind; [apply shell_pass_inv|]. intros _. apply IH.
Qed.

Lemma Selection_inv bgn end_ c :
  Q (returned (result (Selection bgn end_ c))) c (final (Selection bgn end_ c)).
Proof. apply selection_loop_inv. Qed.

Lemma Insertion_inv bgn end_ c :
  Q (returned (result (Insertion bgn end_ c))) c (final (Insertion bgn end_ c)).
Proof. apply insertion_loop_inv. Qed.

Lemma Shell_inv bgn end_ c :
  Q (returned (result (Shell bgn end_ c))) c (final (Shell bgn end_ c)).
Proof.
  unfold Shell. apply inv_bind; [|intros h; apply shell_gaps_inv].
  intros c'. destruct (shell_gap _ _ _); [apply inv_ret | apply inv_diverge].
Qed.

End Invariant.

(** How [Exchange] relates the adapter it is called on to the one it
    leaves. *)
Section SameElements.
Context {A : Type} `{Element A}.
Implicit Types (s : list A) (c : multiKeySorter A).

Lemma swap_Permutation s i j s' : swap s i j = Returned s' -> s' ≡ₚ s.
Proof.
  intros Hs.
  assert (Hij : 0 <= i < Z.of_nat (length s) /\ 0 <= j < Z.of_nat (length s)).
  { unfold swap in Hs.
    destruct (index s i) as [x|] eqn:Hx; [|done].
    destruct (index s j) as [y|] eqn:Hy; [|done].
    split; by eapply index_Some_inrange. }
  destruct (swap_prefix_reordered (length s) s i j s' Hs) as (Hl & Hp & _);
    [lia|lia|].
  rewrite <- Hl in Hp at 1. by rewrite !firstn_all in Hp.
Qed.

Lemma swap_Panicked_length s i j s' : swap s i j = Panicked s' -> length s' = length s.
Proof.
  unfold swap. destruct (index s i) as [x|]; [|by intros [= <-]].
  destruct (index s j) as [y|]; [|by intros [= <-]].
  destruct (is_nil y); [by intros [= <-]|]. cbv zeta.
  destruct (is_nil x); [|done]. intros [= <-]. by rewrite length_insert.
Qed.

(** Without a nil element, a panicking [Exchange] has written nothing. *)
Lemma swap_Panicked_no_nil s i j s' :
  swap s i j = Panicked s' -> no_nil s -> s' = s.
Proof.
  unfold swap. intros Hs Hnn.
  destruct (index s i) as [x|] eqn:Hx; [|by injection Hs].
  destruct (index s j) as [y|] eqn:Hy; [|by injection Hs].
  destruct (is_nil y); [by injection Hs|]. cbv zeta in Hs.
  assert (Hnx : is_nil x = false).
  { pose proof (index_Some_inrange _ _ _ Hx) as Hi.
    apply (no_nil_index (length s) s i); [|lia|done].
    by rewrite firstn_all. }
  by rewrite Hnx in Hs.
Qed.

Lemma same_elements_refl c : same_elements c c.
Proof.
  split; [done|]. destruct (coll c) as [|s|]; [done| |done]. by exists s.
Qed.

Lemma same_shape_refl c : same_shape c c.
Proof.
  split; [done|]. destruct (coll c) as [|s|]; [done| |done]. by exists s.
Qed.

Lemma same_elements_shape c c' : same_elements c c' -> same_shape c c'.
Proof.
  unfold same_elements, same_shape. intros [Hl Hc]. split; [done|].
  destruct (coll c) as [|s|]; [done| |done].
  destruct Hc as (s' & E & Hp). exists s'. split; [done|]. by rewrite Hp.
Qed.

Lemma same_elements_trans c1 c2 c3 :
  same_elements c1 c2 -> same_elements c2 c3 -> same_elements c1 c3.
Proof.
  unfold same_elements. intros [Hl1 H1] [Hl2 H2]. split; [congruence|].
  destruct (coll c1) as [|s1|].
  - by rewrite H1 in H2.
  - destruct H1 as (s2 & E2 & Hp2). rewrite E2 in H2.
    destruct H2 as (s3 & E3 & Hp3). exists s3. split; [done|]. by rewrite Hp3.
  - by rewrite H1 in H2.
Qed.

Lemma same_shape_trans c1 c2 c3 :
  same_shape c1 c2 -> same_shape c2 c3 -> same_shape c1 c3.
Proof.
  unfold same_shape. intros [Hl1 H1] [Hl2 H2]. split; [congruence|].
  destruct (coll c1) as [|s1|].
  - by rewrite H1 in H2.
  - destruct H1 as (s2 & E2 & Hp2). rewrite E2 in H2.
    destruct H2 as (s3 & E3 & Hp3). exists s3. split; [done|]. congruence.
  - by rewrite H1 in H2.
Qed.

Lemma same_shape_slice s (f : A -> A -> bool) c' :
  same_shape (MKS (DynSlice s) f) c' ->
  exists s', c' = MKS (DynSlice s') f /\ length s' = length s.
Proof.
  intros [Hl (s' & Hc & Hlen)]. destruct c' as [d g]. cbn [coll lesser] in *.
  exists s'. split; [congruence | done].
Qed.

Lemma same_elements_returned c i j c' :
  Exchange c i j = Returned c' -> same_elements c c'.
Proof.
  unfold same_elements.
  cbn [Exchange multiKeySorter_Sortable]. unfold mks_Exchange.
  destruct (coll c) as [|s|]; [done| |done].
  destruct (swap s i j) as [s'|s'] eqn:Hs; [|done].
  intros [= <-]. cbn [coll lesser]. split; [done|].
  exists s'. split; [done|]. by eapply swap_Permutation.
Qed.

Lemma same_shape_panicked c i j c' :
  Exchange c i j = Panicked c' -> same_shape c c'.
Proof.
  cbn [Exchange multiKeySorter_Sortable]. unfold mks_Exchange.
  destruct (coll c) as [|s|] eqn:Hc.
  - intros [= <-]. apply same_shape_refl.
  - destruct (swap s i j) as [s'|s'] eqn:Hs; [done|].
    intros [= <-]. unfold same_shape. cbn [coll lesser]. rewrite Hc.
    split; [done|]. exists s'. split; [done|]. by eapply swap_Panicked_length.
  - intros [= <-]. apply same_shape_refl.
Qed.

Lemma same_elements_panicked c i j c' :
  Exchange c i j = Panicked c' -> no_nil (slice_of c) -> c' = c.
Proof.
  cbn [Exchange multiKeySorter_Sortable]. unfold mks_Exchange, slice_of.
  destruct c as [d f]. cbn [coll lesser].
  destruct d as [|s|]; [by intros [= <-]| |by intros [= <-]].
  destruct (swap s i j) as [s'|s'] eqn:Hs; [done|].
  intros [= <-] Hnn. by rewrite (swap_Panicked_no_nil s i j s' Hs Hnn).
Qed.

Lemma same_elements_no_nil c c' :
  same_elements c c' -> no_nil (slice_of c) -> no_nil (slice_of c').
Proof.
  unfold same_elements, slice_of. intros [_ Hc] Hnn.
  destruct (coll c) as [|s|].
  - by rewrite Hc.
  - destruct Hc as (s' & -> & Hp). unfold no_nil. by rewrite Hp.
  - by rewrite Hc.
Qed.

(** A run relates its first adapter to its last one by [same_elements]
    when it returns, and by [same_shape] in any case. *)
Lemma kept_refl (b : bool) c : kept b c c.
Proof. destruct b; [apply same_elements_refl | apply same_shape_refl]. Qed.

Lemma kept_trans (b : bool) c1 c2 c3 :
  kept true c1 c2 -> kept b c2 c3 -> kept b c1 c3.
Proof.
  destruct b; cbn; intros H1 H2.
  - by eapply same_elements_trans.
  - eapply same_shape_trans; [by apply same_elements_shape | done].
Qed.

Lemma kept_returned c i j c' : Exchange c i j = Returned c' -> kept true c c'.
Proof. apply same_elements_returned. Qed.

Lemma kept_panicked c i j c' : Exchange c i j = Panicked c' -> kept false c c'.
Proof. apply same_shape_panicked. Qed.

Lemma kept_shape (b : bool) c c' : kept b c c' -> same_shape c c'.
Proof. destruct b; [apply same_elements_shape | done]. Qed.

(** When no element is nil, it does so by [same_elements] however it
    ends. *)
Lemma nil_free_refl c :
  no_nil (slice_of c) -> same_elements c c /\ no_nil (slice_of c).
Proof. intros Hnn. split; [apply same_elements_refl | done]. Qed.

Lemma nil_free_trans c1 c2 c3 :
  (no_nil (slice_of c1) -> same_elements c1 c2 /\ no_nil (slice_of c2)) ->
  (no_nil (slice_of c2) -> same_elements c2 c3 /\ no_nil (slice_of c3)) ->
  no_nil (slice_of c1) -> same_elements c1 c3 /\ no_nil (slice_of c3).
Proof.
  intros H1 H2 Hnn. destruct (H1 Hnn) as [He1 Hn2].
  destruct (H2 Hn2) as [He2 Hn3]. split; [by eapply same_elements_trans | done].
Qed.

Lemma nil_free_exchange c i j c' :
  Exchange c i j = Returned c' \/ Exchange c i j = Panicked c' ->
  no_nil (slice_of c) -> same_elements c c' /\ no_nil (slice_of c').
Proof.
  intros [Hx | Hx] Hnn.
  - pose proof (same_elements_returned c i j c' Hx) as He.
    split; [done | by eapply same_elements_no_nil].
  - rewrite (same_elements_panicked c i j c' Hx Hnn).
    split; [apply same_elements_refl | done].
Qed.

End SameElements.

(** ** Ranges that leave the slice *)
Section Bounds.
Context {A : Type} `{Element A} (f : A -> A -> bool).
Implicit Types (s : list A).
Import GoInt GoIntFacts.

Lemma less_panic s i j :
  index s i = None \/ index s j = None ->
  less i j (MKS (DynSlice s) f) = Run Panic (MKS (DynSlice s) f) [CallLess i j].
Proof.
  intros Hij. unfold less. cbn [Less multiKeySorter_Sortable].
  unfold mks_Less. cbn [coll lesser].
  destruct Hij as [-> | Hj]; [done|]. rewrite Hj. by destruct (index s i).
Qed.

Lemma exchange_panic s i j :
  index s i = None \/ index s j = None ->
  exchange i j (MKS (DynSlice s) f)
    = Run Panic (MKS (DynSlice s) f) [CallExchange i j].
Proof.
  intros Hij. unfold exchange. cbn [Exchange multiKeySorter_Sortable].
  unfold mks_Exchange, swap. cbn [coll lesser].
  destruct Hij as [-> | Hj]; [done|]. rewrite Hj. by destruct (index s i).
Qed.

Lemma bind_Panic {C X Y : Type} (m : M C X) (k : X -> M C Y) c :
  result (m c) = Panic -> result (bind m k c) = Panic.
Proof. intros Hm. unfold bind. by rewrite Hm. Qed.

Lemma bind_Done_result {C X Y : Type} (m : M C X) (k : X -> M C Y) c x c1 t1 :
  m c = Run (Done x) c1 t1 -> result (bind m k c) = result (k x c1).
Proof. intros Hm. by rewrite (bind_Done m k c x c1 t1 Hm). Qed.

(** A run on a slice that comes to an end panics, or returns with a
    slice of the same length. *)
Lemma run_shape {X} (r : run (multiKeySorter A) X) s :
  result r <> OutOfFuel ->
  kept (returned (result r)) (MKS (DynSlice s) f) (final r) ->
  result r = Panic \/
  exists x s' t, r = Run (Done x) (MKS (DynSlice s') f) t /\ length s' = length s.
Proof.
  destruct r as [[x| |] c t]; cbn [result final returned]; intros Hr Hk.
  - right. apply kept_shape, same_shape_slice in Hk as (s' & -> & Hl).
    by exists x, s', t.
  - by left.
  - done.
Qed.

Lemma exchange_cases s i j :
  result (exchange i j (MKS (DynSlice s) f)) = Panic \/
  exists s', exchange i j (MKS (DynSlice s) f)
               = Run (Done tt) (MKS (DynSlice s') f) [CallExchange i j] /\
             length s' = length s.
Proof.
  unfold exchange. cbn [Exchange multiKeySorter_Sortable].
  unfold mks_Exchange. cbn [coll lesser].
  destruct (swap s i j) as [s'|s'] eqn:Hs; [|by left].
  right. exists s'. split; [done|]. by rewrite (swap_Permutation s i j s' Hs).
Qed.

(** *** Insertion *)

Lemma insertion_sift_len bgn fuel s j :
  is_int bgn -> is_int j -> (Z.to_nat (j - bgn) < fuel)%nat ->
  result (insertion_sift fuel bgn j (MKS (DynSlice s) f)) = Panic \/
  exists s' t,
    insertion_sift fuel bgn j (MKS (DynSlice s) f)
      = Run (Done tt) (MKS (DynSlice s') f) t /\
    length s' = length s.
Proof.
  intros Hib Hij Hfuel.
  destruct (run_shape (insertion_sift fuel bgn j (MKS (DynSlice s) f)) s)
    as [Hp | ([] & s' & t & Hr & Hl)].
  - eapply safe_not_diverge. by apply insertion_sift_safe.
  - apply (insertion_sift_inv kept);
      [apply kept_refl | apply kept_trans | apply kept_returned
      | apply kept_panicked].
  - by left.
  - right. by exists s', t.
Qed.

Lemma insertion_loop_overrun bgn end_ fuel : forall s i,
  bgn <= i < end_ -> bgn + 1 < end_ ->
  (0 <= bgn /\ Z.of_nat (length s) < end_) \/ (bgn < 0 /\ i <= bgn + 1) ->
  is_int bgn -> is_int end_ ->
  (Z.to_nat (end_ - i) < fuel)%nat ->
  result (insertion_loop fuel bgn end_ i (MKS (DynSlice s) f)) = Panic.
Proof.
  induction fuel as [|fuel IH]; intros s i Hi Hb2 Hcase Hib Hie Hfuel; [lia|].
  rewrite insertion_loop_step by lia.
  assert (Hadd : add i 1 = i + 1).
  { apply add_small. unfold is_int, min_int, max_int in *. lia. }
  rewrite Hadd.
  destruct (Z.eq_dec i bgn) as [-> | Hne].
  - rewrite (bind_Done_result _ _ _ tt (MKS (DynSlice s) f) []).
    + apply IH; [lia|done| |done|done|lia]. destruct Hcase; [by left|right; lia].
    + apply insertion_sift_exit. lia.
  - assert (Hsub : sub i 1 = i - 1).
    { apply sub_small. unfold is_int, min_int, max_int in *. lia. }
    destruct (index s i) as [x|] eqn:Hx; [destruct (index s (i - 1)) as [y|] eqn:Hy|].
    + apply index_Some_inrange in Hx. apply index_Some_inrange in Hy.
      destruct Hcase as [[Hb0 Hlen] | [Hneg Hi1]]; [|lia].
      destruct (insertion_sift_len bgn (S (Z.to_nat (i - bgn))) s i)
        as [Hp | (s' & t & Hrun & Hl)]; [done| |lia| |].
      { unfold is_int, min_int, max_int in *. lia. }
      { by apply bind_Panic. }
      rewrite (bind_Done_result _ _ _ tt (MKS (DynSlice s') f) t Hrun).
      apply IH; [lia|done| |done|done|lia]. left. lia.
    + apply bind_Panic. cbn [insertion_sift].
      destruct (Z.gtb_spec i bgn) as [_|Hle]; [|lia]. rewrite Hsub.
      apply bind_Panic. rewrite less_panic by (by right). done.
    + apply bind_Panic. cbn [insertion_sift].
      destruct (Z.gtb_spec i bgn) as [_|Hle]; [|lia]. rewrite Hsub.
      apply bind_Panic. rewrite less_panic by (by left). done.
Qed.

(** *** Selection *)

Lemma selection_scan_result end_ fuel : forall s j min,
  0 <= min < Z.of_nat (length s) -> min < j -> is_int end_ ->
  result (selection_scan fuel end_ j min (MKS (DynSlice s) f)) = Panic \/
  result (selection_scan fuel end_ j min (MKS (DynSlice s) f)) = OutOfFuel \/
  exists m t,
    selection_scan fuel end_ j min (MKS (DynSlice s) f)
      = Run (Done m) (MKS (DynSlice s) f) t /\
    0 <= m < Z.of_nat (length s).
Proof.
  induction fuel as [|fuel IH]; intros s j min Hmin Hj Hint; [by right; left|].
  cbn [selection_scan]. destruct (Z.ltb_spec j end_) as [Hlt|Hge].
  - assert (Hadd : add j 1 = j + 1).
    { apply add_small. unfold is_int, min_int, max_int in *. lia. }
    rewrite Hadd.
    destruct (index_inrange s min Hmin) as [y Hy].
    destruct (index s j) as [x|] eqn:Hx.
    + pose proof (index_Some_inrange _ _ _ Hx) as Hjr.
      pose proof (less_run f s j min x y Hx Hy) as Hless.
      destruct (f x y) eqn:Hxy.
      * destruct (IH s (j + 1) j) as [Hp | [Ho | (m & t & Hrun & Hm)]];
          [lia|lia|done| | |].
        -- left. rewrite (bind_Done_result _ _ _ _ _ _ Hless). exact Hp.
        -- right; left. rewrite (bind_Done_result _ _ _ _ _ _ Hless). exact Ho.
        -- right; right. exists m, ([CallLess j min] ++ t). split; [|done].
           eapply bind_Done_run; [exact Hless | exact Hrun].
      * right; right. exists min, ([CallLess j min] ++ []). split; [|done].
        eapply bind_Done_run; [exact Hless | reflexivity].
    + left. apply bind_Panic. rewrite less_panic by (by left). done.
  - right; right. by exists min, [].
Qed.

Lemma selection_scan_bad_min end_ fuel s j min :
  index s min = None ->
  result (selection_scan (S fuel) end_ j min (MKS (DynSlice s) f)) = Panic \/
  selection_scan (S fuel) end_ j min (MKS (DynSlice s) f)
    = Run (Done min) (MKS (DynSlice s) f) [].
Proof.
  intros Hmin. cbn [selection_scan]. destruct (j <? end_); [|by right].
  left. apply bind_Panic. rewrite less_panic by (by right). done.
Qed.

Lemma selection_loop_overrun end_ fuel : forall s i,
  i < end_ -> i < 0 \/ Z.of_nat (length s) < end_ ->
  is_int i -> is_int end_ ->
  (Z.to_nat (end_ - i) < fuel)%nat ->
  result (selection_loop fuel end_ i (MKS (DynSlice s) f)) = Panic.
Proof.
  induction fuel as [|fuel IH]; intros s i Hi Hcase Hii Hie Hfuel; [lia|].
  rewrite selection_loop_step by done.
  assert (Hadd : add i 1 = i + 1).
  { apply add_small. unfold is_int, min_int, max_int in *. lia. }
  rewrite Hadd.
  destruct (index s i) as [x|] eqn:Hx.
  - apply index_Some_inrange in Hx.
    destruct (selection_scan_safe (S (Z.to_nat (end_ - (i + 1)))) i end_ (i + 1) i
                (MKS (DynSlice s) f)) as [Hnd _]; [done|done|lia|lia|lia|].
    destruct (selection_scan_result end_ (S (Z.to_nat (end_ - (i + 1)))) s (i + 1) i)
      as [Hp | [Ho | (m & t & Hrun & Hm)]]; [lia|lia|done| | |].
    + by apply bind_Panic.
    + by rewrite Ho in Hnd.
    + rewrite (bind_Done_result _ _ _ _ _ _ Hrun).
      destruct (exchange_cases s i m) as [Hp | (s1 & Hex & Hl1)];
        [by apply bind_Panic|].
      rewrite (bind_Done_result _ _ _ _ _ _ Hex).
      apply IH; [lia| |  |done|lia].
      * right. lia.
      * unfold is_int, min_int, max_int in *. lia.
  - destruct (selection_scan_bad_min end_ (Z.to_nat (end_ - (i + 1))) s (i + 1) i Hx)
      as [Hp | Hrun].
    + by apply bind_Panic.
    + rewrite (bind_Done_result _ _ _ _ _ _ Hrun).
      apply bind_Panic. rewrite exchange_panic by (by left). done.
Qed.

(** *** Shell *)

Lemma shell_pass_overrun n h fuel : forall s i,
  1 <= h <= i -> i < n -> Z.of_nat (length s) < n -> is_int n ->
  (Z.to_nat (n - i) < fuel)%nat ->
  result (shell_pass fuel n h i (MKS (DynSlice s) f)) = Panic.
Proof.
  induction fuel as [|fuel IH]; intros s i Hh Hi Hlen Hint Hfuel; [lia|].
  rewrite shell_pass_step by done.
  assert (Hadd : add i 1 = i + 1).
  { apply add_small. unfold is_int, min_int, max_int in *. lia. }
  rewrite Hadd.
  destruct (index s i) as [x|] eqn:Hx.
  - apply index_Some_inrange in Hx.
    destruct (run_shape (shell_sift (S (Z.to_nat i)) h i (MKS (DynSlice s) f)) s)
      as [Hp | ([] & s' & t & Hrun & Hl)].
    { eapply safe_not_diverge. apply shell_sift_safe; [lia| |lia].
      unfold is_int, min_int, max_int in *. lia. }
    { apply (shell_sift_inv kept);
        [apply kept_refl | apply kept_trans | apply kept_returned
        | apply kept_panicked]. }
    { by apply bind_Panic. }
    rewrite (bind_Done_result _ _ _ _ _ _ Hrun).
    apply IH; [lia|lia|lia|done|lia].
  - apply bind_Panic. cbn [shell_sift].
    destruct (Z.geb_spec i h) as [_|Hlt]; [|lia].
    apply bind_Panic. rewrite less_panic by (by left). done.
Qed.

Lemma shell_gap_below n :
  is_int n -> 2 <= n ->
  exists h, shell_gap (S (Z.to_nat n)) n 1 = Some h /\ 1 <= h < n.
Proof.
  intros Hint Hn.
  destruct (shell_gap_from (S (Z.to_nat n)) n 0 Hint) as (m & Hrun & _ & _ & Hall).
  - intros k Hk. lia.
  - cbn [gap_seq]. rewrite quot3_nonneg by (done || lia).
    pose proof (Z.div_le_upper_bound n 3 n ltac:(lia) ltac:(lia)). lia.
  - cbn [gap_seq] in Hrun. exists (gap_seq m). split; [done|].
    pose proof (gap_seq_pos m). split; [done|].
    destruct m as [|k]; [simpl; lia|].
    specialize (Hall k ltac:(lia)). rewrite quot3_nonneg in Hall by (done || lia).
    pose proof (Z.mul_div_le n 3 ltac:(lia)).
    cbn [gap_seq]. generalize dependent (n / 3). intros. lia.
Qed.

End Bounds.

(** * The claims *)

(** ** Scenarios *)

(** C9: [Shell] on [9,8,7,6,5,4,3,2,1] with [begin = 0] and [end = 9],
    under [<], returns normally and leaves [1,2,3,4,5,6,7,8,9]. *)
Theorem Shell_scenario_nine_descending :
  let r := Shell 0 9 (ints [9; 8; 7; 6; 5; 4; 3; 2; 1]) in
  result r = Done tt /\
  slice_of (final r) = [1; 2; 3; 4; 5; 6; 7; 8; 9].
Proof. vm_compute. split; reflexivity. Qed.

(** C10: [Insertion] on [9,8,1,2,3] with [begin = 1] and [end = 4], under
    [<], returns normally and leaves [9,1,2,8,3]: positions 1..3 are
    sorted, positions 0 and 4 keep their elements. *)
Theorem Insertion_scenario_partial_range :
  let s := [9; 8; 1; 2; 3] in
  let r := Insertion 1 4 (ints s) in
  result r = Done tt /\
  slice_of (final r) = [9; 1; 2; 8; 3] /\
  slice_of (final r) !! 0%nat = s !! 0%nat /\
  slice_of (final r) !! 4%nat = s !! 4%nat /\
  nondecreasing (final r) 1 4.
Proof.
  cbv zeta. split; [by vm_compute|]. split; [by vm_compute|].
  split; [by vm_compute|]. split; [by vm_compute|].
  intros k Hlo Hhi.
  assert (Hk : k = 1 \/ k = 2) by lia.
  destruct Hk as [-> | ->]; by vm_compute.
Qed.

(** ** Selection *)

(** C1: the range is not always non-decreasing after the call.
    [Selection] on [2,3,1] over [[0, 3)] returns normally with [2,1,3],
    where position 1 is ordered before position 0; [Shell] on [3,2,1,5]
    over [[1, 3)] returns normally with [2,3,1,5], where position 2 is
    ordered before position 1. *)
Theorem sortedness_fails_for_Selection_and_offset_Shell :
  (let r := Selection 0 3 (ints [2; 3; 1]) in
   result r = Done tt /\ slice_of (final r) = [2; 1; 3] /\
   Less (final r) 1 0 = Some true /\ ~ nondecreasing (final r) 0 3) /\
  (let r := Shell 1 3 (ints [3; 2; 1; 5]) in
   result r = Done tt /\ slice_of (final r) = [2; 3; 1; 5] /\
   Less (final r) 2 1 = Some true /\ ~ nondecreasing (final r) 1 3).
Proof.
  split; cbv zeta.
  - repeat (split; [by vm_compute|]).
    intros Hs. specialize (Hs 0 ltac:(lia) ltac:(lia)). by vm_compute in Hs.
  - repeat (split; [by vm_compute|]).
    intros Hs. specialize (Hs 1 ltac:(lia) ltac:(lia)). by vm_compute in Hs.
Qed.

(** C2: the inner scan of [Selection] does not visit the whole remainder.
    On [2,3,1] with [end = 3], the scan of the first outer iteration
    ([i = 0], started at [j = 1] with [min = 0]) makes the single call
    [Less(1, 0)] and stops with [min = 0]; position 2 is never compared,
    although it holds an element ordered before the one at [min]. *)
Theorem selection_scan_stops_at_first_not_less :
  let c := ints [2; 3; 1] in
  selection_scan (S (Z.to_nat (3 - 1))) 3 1 0 c = Run (Done 0) c [CallLess 1 0] /\
  Less c 2 0 = Some true.
Proof. by vm_compute. Qed.

(** ** Shell with a non-zero [begin] *)

(** C3: [Shell] on [3,1,2,5] over [[1, 3)] returns normally with
    [1,3,2,5]: the range held 1 and 2 before the call and holds 3 and 2
    after it, which is no permutation. *)
Theorem Shell_offset_changes_range_contents :
  let s := [3; 1; 2; 5] in
  let r := Shell 1 3 (ints s) in
  result r = Done tt /\
  slice_of (final r) = [1; 3; 2; 5] /\
  sub_slice s 1 3 = [1; 2] /\
  sub_slice (slice_of (final r)) 1 3 = [3; 2] /\
  ~ sub_slice (slice_of (final r)) 1 3 ≡ₚ sub_slice s 1 3.
Proof.
  cbv zeta. repeat (split; [by vm_compute|]).
  replace (sub_slice (slice_of (final (Shell 1 3 (ints [3; 1; 2; 5])))) 1 3)
    with [3; 2] by (by vm_compute).
  replace (sub_slice [3; 1; 2; 5] 1 3) with [1; 2] by (by vm_compute).
  intros Hp.
  assert (Hin : (3 : Z) ∈ [1; 2]) by (rewrite <- Hp; constructor).
  rewrite !elem_of_cons, elem_of_nil in Hin.
  by destruct Hin as [Hin | [Hin | []]].
Qed.

(** C7: an already sorted range can still be changed.  In [3,1,2,5] the
    range [[1, 3)] is non-decreasing, yet [Shell] over it calls
    [Exchange(1, 0)] and leaves [1,3,2,5]. *)
Theorem Shell_offset_disturbs_sorted_range :
  let c := ints [3; 1; 2; 5] in
  let r := Shell 1 3 c in
  nondecreasing c 1 3 /\
  result r = Done tt /\
  exchanges (calls r) = [CallExchange 1 0] /\
  slice_of (final r) = [1; 3; 2; 5] /\
  slice_of (final r) <> slice_of c.
Proof.
  cbv zeta. split.
  - intros k Hlo Hhi. assert (k = 1) as -> by lia. by vm_compute.
  - by vm_compute.
Qed.

(** ** The increment computed by [Shell] *)

(** C5, as stated, fails: for [n = 9] the first loop of [Shell] ends with
    [h = 4], which is not less than [9 / 3 = 3]; so [4] is not the
    largest increment below [n / 3]. *)
Lemma shell_gap_not_largest_below :
  shell_gap (S (Z.to_nat 9)) 9 1 = Some 4 /\
  ~ largest_gap_below (GoInt.quot 9 3) 4.
Proof.
  split; [by vm_compute|].
  intros (_ & Hlt & _). by vm_compute in Hlt.
Qed.

(** C5, amended: for every [int] [n], the first loop of [Shell] ends, and
    ends with [h] the smallest value of 1, 4, 13, 40, 121, ... that is at
    least [n / 3] (the division truncating). *)
Theorem shell_gap_is_least_gap_from (n : Z) :
  GoInt.is_int n ->
  exists h,
    shell_gap (S (Z.to_nat n)) n 1 = Some h /\
    least_gap_from (GoInt.quot n 3) h.
Proof.
  intros Hn. destruct (shell_gap_least n Hn) as (m & Hrun & Hleast).
  by exists (gap_seq m).
Qed.

Lemma shell_gap_is_least_gap_from_witness :
  GoInt.is_int 100 /\
  exists h,
    shell_gap (S (Z.to_nat 100)) 100 1 = Some h /\
    least_gap_from (GoInt.quot 100 3) h.
Proof.
  assert (Hn : GoInt.is_int 100) by (unfold GoInt.is_int, GoInt.min_int, GoInt.max_int; lia).
  split; [exact Hn|]. exact (shell_gap_is_least_gap_from 100 Hn).
Defined.

(** ** Trivial ranges *)

(** C8, as stated, fails: on a one-element range [Selection] makes an
    [Exchange] call. *)
Lemma Selection_single_element_exchanges :
  let r := Selection 1 2 (ints [3; 1; 2; 5]) in
  calls r = [CallExchange 1 1] /\
  ~ (lesses (calls r) = [] /\ exchanges (calls r) = []).
Proof.
  cbv zeta. split; [by vm_compute|].
  intros [_ He]. by vm_compute in He.
Qed.

(** C8, amended: for every collection, each of the three algorithms called
    with [begin = end] returns normally, makes no call and leaves the
    collection as it is; so do [Insertion] and [Shell] on a one-element
    range, while [Selection] on a one-element range makes no [Less] call
    and exactly the one call [Exchange(begin, begin)], which on a slice
    with [begin] a valid position changes nothing, and returns when the
    element there is not a nil interface value. *)
Theorem trivial_ranges :
  (forall (C : Type) (SC : Sortable C) (c : C) (bgn : Z),
     Selection bgn bgn c = Run (Done tt) c [] /\
     Insertion bgn bgn c = Run (Done tt) c [] /\
     Shell bgn bgn c = Run (Done tt) c []) /\
  (forall (C : Type) (SC : Sortable C) (c : C) (bgn : Z),
     GoInt.is_int (bgn + 1) ->
     Insertion bgn (bgn + 1) c = Run (Done tt) c [] /\
     Shell bgn (bgn + 1) c = Run (Done tt) c [] /\
     calls (Selection bgn (bgn + 1) c) = [CallExchange bgn bgn]) /\
  (forall (A : Type) (EA : Element A) (f : A -> A -> bool) (s : list A)
          (bgn : Z) (x : A),
     index s bgn = Some x ->
     GoInt.is_int (bgn + 1) ->
     final (Selection bgn (bgn + 1) (MKS (DynSlice s) f)) = MKS (DynSlice s) f /\
     (is_nil x = false ->
      Selection bgn (bgn + 1) (MKS (DynSlice s) f)
        = Run (Done tt) (MKS (DynSlice s) f) [CallExchange bgn bgn])).
Proof.
  assert (Hsel : forall (C : Type) (SC : Sortable C) (c : C) (bgn : Z),
    GoInt.is_int (bgn + 1) ->
    Selection bgn (bgn + 1) c =
      match Exchange c bgn bgn with
      | Returned c' => Run (Done tt) c' [CallExchange bgn bgn]
      | Panicked c' => Run Panic c' [CallExchange bgn bgn]
      end).
  { intros C SC c bgn Hb. unfold Selection.
    replace (bgn + 1 - bgn) with 1 by lia. change (Z.to_nat 1) with 1%nat.
    rewrite selection_loop_step by lia.
    rewrite (GoIntFacts.add_small bgn 1) by done.
    unfold bind at 1. rewrite selection_scan_exit by lia.
    cbn [result final calls]. unfold bind, exchange.
    destruct (Exchange c bgn bgn) as [c'|c']; cbn [result final calls]; [|done].
    by rewrite selection_loop_exit by lia. }
  split; [|split].
  - intros C SC c bgn. split; [|split].
    + unfold Selection. by apply selection_loop_exit.
    + unfold Insertion. by apply insertion_loop_exit.
    + apply Shell_short. unfold GoInt.sub. rewrite Z.sub_diag. by vm_compute.
  - intros C SC c bgn Hb. split; [|split].
    + unfold Insertion.
      replace (bgn + 1 - bgn) with 1 by lia. change (Z.to_nat 1) with 1%nat.
      rewrite insertion_loop_step by lia.
      rewrite (GoIntFacts.add_small bgn 1) by done.
      unfold bind. rewrite insertion_sift_exit by lia.
      cbn [result final calls].
      by rewrite insertion_loop_exit by lia.
    + apply Shell_short. unfold GoInt.sub.
      replace (bgn + 1 - bgn) with 1 by lia. by vm_compute.
    + rewrite Hsel by done. by destruct (Exchange c bgn bgn).
  - intros A EA f s bgn x Hx Hb. rewrite Hsel by done.
    cbn [Exchange multiKeySorter_Sortable]. unfold mks_Exchange, swap.
    cbn [coll lesser]. rewrite Hx.
    destruct (is_nil x); [done|]. cbv zeta.
    unfold index in Hx. destruct (0 <=? bgn); [|done].
    rewrite list_insert_insert_eq. rewrite list_insert_id by done.
    split; [done|]. by intros _.
Qed.

Lemma trivial_ranges_witness :
  GoInt.is_int (1 + 1) /\ index [3; 1; 2; 5] 1 = Some 1 /\ is_nil 1 = false /\
  Insertion 1 (1 + 1) (ints [3; 1; 2; 5]) = Run (Done tt) (ints [3; 1; 2; 5]) [] /\
  Selection 1 (1 + 1) (ints [3; 1; 2; 5])
    = Run (Done tt) (ints [3; 1; 2; 5]) [CallExchange 1 1].
Proof.
  assert (Hb : GoInt.is_int (1 + 1)) by (by vm_compute).
  assert (Hx : index [3; 1; 2; 5] 1 = Some 1) by reflexivity.
  assert (Hnil : is_nil 1 = false) by reflexivity.
  split; [exact Hb|]. split; [exact Hx|]. split; [exact Hnil|]. split.
  - exact (proj1 (proj1 (proj2 trivial_ranges) _ _ (ints [3; 1; 2; 5]) 1 Hb)).
  - exact (proj2 (proj2 (proj2 trivial_ranges) _ _ Z.ltb [3; 1; 2; 5] 1 1 Hx Hb)
             Hnil).
Defined.

(** ** [Shell] and its range *)



(** ** [By.Sort] on a slice with a nil element *)

(** C6: the slice is not always sorted in place.  On the slice [1, nil] of
    interface values, with nil ordered first, [By.Sort] compares
    positions 1 and 0 and calls [Exchange(1, 0)], which overwrites
    position 1 and then panics at its second [Set]: the run ends in a
    panic, and the slice holds [1, 1], which has lost the nil element. *)
Theorem By_Sort_nil_element_panics :
  By_Sort nil_first (DynSlice [Some 1; None])
    = Run Panic (MKS (DynSlice [Some 1; Some 1]) nil_first)
        [CallLess 1 0; CallExchange 1 0] /\
  Exchange (MKS (DynSlice [Some 1; None]) nil_first) 1 0
    = Panicked (MKS (DynSlice [Some 1; Some 1]) nil_first) /\
  ~ ([Some 1; Some 1] ≡ₚ [Some 1; None]).
Proof.
  split; [by vm_compute|]. split; [by vm_compute|].
  intros Hp.
  assert (Hin : None ∈ [Some 1; Some 1]).
  { rewrite Hp. rewrite !elem_of_cons. by right; left. }
  rewrite !elem_of_cons, elem_of_nil in Hin. by destruct Hin as [|[|]].
Qed.

(** * Further properties *)

(** ** The methods of [multiKeySorter] *)

(** X1: [Length], [Less] and [Exchange] panic, whatever the positions, when
    [coll] is not a slice. *)
Theorem multiKeySorter_requires_slice {A : Type} `{Element A}
    (f : A -> A -> bool) (c : dyn A) :
  (forall s, c <> DynSlice s) ->
  Length (MKS c f) = None /\
  forall i j, Less (MKS c f) i j = None /\
              Exchange (MKS c f) i j = Panicked (MKS c f).
Proof.
  intros Hc. destruct c as [|s|]; [done | by destruct (Hc s) | done].
Qed.

Lemma multiKeySorter_requires_slice_witness :
  Length (MKS (@DynOther Z) Z.ltb) = None /\
  forall i j, Less (MKS (@DynOther Z) Z.ltb) i j = None /\
              Exchange (MKS (@DynOther Z) Z.ltb) i j
                = Panicked (MKS (@DynOther Z) Z.ltb).
Proof.
  apply (multiKeySorter_requires_slice Z.ltb DynOther). intros s. discriminate.
Defined.

(** X2: On a slice, [Length] is the number of elements, and [Less] panics
    exactly when one of the two positions is outside [[0, length)];
    inside, it is the comparator applied to the two elements.
    [Exchange] returns exactly when both positions are inside and
    neither element is a nil interface value.  When it panics it has
    left the slice as it was, except when the element at [i] is nil and
    the one at [j] is not: then position [i] already holds the element
    of [j]. *)
Theorem multiKeySorter_bounds {A : Type} `{Element A}
    (f : A -> A -> bool) (s : list A) (i j : Z) :
  let m := MKS (DynSlice s) f in
  let inside := (0 <= i < Z.of_nat (length s)) /\ (0 <= j < Z.of_nat (length s)) in
  Length m = Some (Z.of_nat (length s)) /\
  (Less m i j = None <-> ~ inside) /\
  (forall x y, index s i = Some x -> index s j = Some y ->
     Less m i j = Some (f x y)) /\
  ((exists m', Exchange m i j = Returned m') <->
     exists x y, index s i = Some x /\ index s j = Some y /\
                 is_nil x = false /\ is_nil y = false) /\
  (forall x y, index s i = Some x -> index s j = Some y ->
     is_nil x = true -> is_nil y = false ->
     Exchange m i j = Panicked (MKS (DynSlice (<[Z.to_nat i := y]> s)) f)) /\
  (forall m', Exchange m i j = Panicked m' ->
     m' = m \/
     exists x y, index s i = Some x /\ index s j = Some y /\
                 is_nil x = true /\ is_nil y = false).
Proof.
  cbv zeta. cbn [Length Less Exchange multiKeySorter_Sortable].
  unfold mks_Length, mks_Less, mks_Exchange, swap. cbn [coll lesser].
  split; [done|]. split; [|split; [|split; [|split]]].
  - destruct (index s i) as [x|] eqn:Hx.
    + destruct (index s j) as [y|] eqn:Hy.
      * split; [done|]. intros Hn. destruct Hn.
        split; eapply index_Some_inrange; eassumption.
      * split; [|done]. intros _ [_ Hj]. by apply index_None in Hy.
    + split; [|done]. intros _ [Hi _]. by apply index_None in Hx.
  - intros x y -> ->. done.
  - split.
    + intros [m' Hm].
      destruct (index s i) as [x|]; [|done].
      destruct (index s j) as [y|]; [|done].
      destruct (is_nil y) eqn:Hny; [done|]. cbv zeta in Hm.
      destruct (is_nil x) eqn:Hnx; [done|]. by exists x, y.
    + intros (x & y & -> & -> & -> & ->). by eexists.
  - intros x y -> -> -> ->. done.
  - intros m' Hm.
    destruct (index s i) as [x|]; [|left; congruence].
    destruct (index s j) as [y|]; [|left; congruence].
    destruct (is_nil y) eqn:Hny; [left; congruence|]. cbv zeta in Hm.
    destruct (is_nil x) eqn:Hnx; [|done]. right. by exists x, y.
Qed.

(** X3: What a successful [Exchange(i, j)] does to a slice: the two
    positions trade their elements, every other position keeps its own,
    and the comparator stays. *)
Theorem Exchange_swaps {A : Type} `{Element A}
    (f : A -> A -> bool) (s : list A) (i j : Z) (m' : multiKeySorter A) :
  Exchange (MKS (DynSlice s) f) i j = Returned m' ->
  exists s',
    m' = MKS (DynSlice s') f /\
    length s' = length s /\
    index s' i = index s j /\
    index s' j = index s i /\
    (forall k, k <> i -> k <> j -> index s' k = index s k) /\
    s' ≡ₚ s.
Proof.
  cbn [Exchange multiKeySorter_Sortable]. unfold mks_Exchange, swap.
  cbn [coll lesser].
  destruct (index s i) as [x|] eqn:Hx; [|done].
  destruct (index s j) as [y|] eqn:Hy; [|done].
  destruct (is_nil y); [done|]. cbv zeta. destruct (is_nil x); [done|].
  intros [= <-]. eexists. split; [reflexivity|].
  pose proof (index_Some_inrange s i x Hx) as Hi.
  pose proof (index_Some_inrange s j y Hy) as Hj.
  unfold index in *.
  rewrite (proj2 (Z.leb_le 0 i)) in * by lia.
  rewrite (proj2 (Z.leb_le 0 j)) in * by lia.
  split; [by rewrite !length_insert|]. split; [|split; [|split]].
  - destruct (decide (Z.to_nat i = Z.to_nat j)) as [Heq|Hne].
    + rewrite Heq. rewrite list_lookup_insert_eq by (rewrite length_insert; lia).
      congruence.
    + rewrite list_lookup_insert_ne by done.
      rewrite list_lookup_insert_eq by lia. done.
  - rewrite list_lookup_insert_eq by (rewrite length_insert; lia). done.
  - intros k Hki Hkj. destruct (Z.leb_spec 0 k); [|done].
    rewrite !list_lookup_insert_ne by lia. done.
  - by apply Permutation_insert_swap.
Qed.

Lemma Exchange_swaps_witness :
  exists s',
    MKS (DynSlice [7; 5; 9]) Z.ltb = MKS (DynSlice s') Z.ltb /\
    length s' = length [5; 7; 9] /\
    index s' 0 = index [5; 7; 9] 1 /\
    index s' 1 = index [5; 7; 9] 0 /\
    (forall k, k <> 0 -> k <> 1 -> index s' k = index [5; 7; 9] k) /\
    s' ≡ₚ [5; 7; 9].
Proof.
  apply (Exchange_swaps Z.ltb [5; 7; 9] 0 1). reflexivity.
Defined.

(** X4: [Exchange] is its own inverse, and does not depend on the order of
    its two positions. *)
Theorem Exchange_involutive {A : Type} `{Element A}
    (f : A -> A -> bool) (s : list A) (i j : Z) (m' : multiKeySorter A) :
  Exchange (MKS (DynSlice s) f) i j = Returned m' ->
  Exchange m' i j = Returned (MKS (DynSlice s) f) /\
  Exchange (MKS (DynSlice s) f) j i = Returned m'.
Proof.
  cbn [Exchange multiKeySorter_Sortable]. unfold mks_Exchange, swap.
  cbn [coll lesser].
  destruct (index s i) as [x|] eqn:Hx; [|done].
  destruct (index s j) as [y|] eqn:Hy; [|done].
  destruct (is_nil y) eqn:Hny; [done|]. cbv zeta.
  destruct (is_nil x) eqn:Hnx; [done|].
  intros [= <-]. cbn [coll lesser].
  pose proof (index_Some_inrange s i x Hx) as Hi.
  pose proof (index_Some_inrange s j y Hy) as Hj.
  unfold index in *.
  rewrite (proj2 (Z.leb_le 0 i)) in * by lia.
  rewrite (proj2 (Z.leb_le 0 j)) in * by lia.
  destruct (decide (Z.to_nat i = Z.to_nat j)) as [Heq|Hne].
  - rewrite Heq in *. assert (x = y) as -> by congruence.
    rewrite !list_lookup_insert_eq by (rewrite ?length_insert; lia).
    rewrite Hny.
    rewrite !list_insert_insert_eq. rewrite list_insert_id by done. done.
  - rewrite (list_lookup_insert_ne _ (Z.to_nat j) (Z.to_nat i)) by done.
    rewrite (list_lookup_insert_eq _ (Z.to_nat i)) by lia.
    rewrite (list_lookup_insert_eq _ (Z.to_nat j)) by (rewrite length_insert; lia).
    rewrite Hnx, Hny.
    split.
    + f_equal. f_equal. f_equal.
      rewrite (list_insert_insert_ne _ (Z.to_nat j) (Z.to_nat i)) by done.
      rewrite list_insert_insert_eq.
      rewrite (list_insert_insert_ne _ (Z.to_nat i) (Z.to_nat j)) by done.
      rewrite list_insert_insert_eq.
      rewrite (list_insert_id s (Z.to_nat i)) by done.
      by rewrite list_insert_id.
    + f_equal. f_equal. f_equal.
      by rewrite list_insert_insert_ne.
Qed.

Lemma Exchange_involutive_witness :
  Exchange (MKS (DynSlice [7; 5; 9]) Z.ltb) 0 1
    = Returned (MKS (DynSlice [5; 7; 9]) Z.ltb) /\
  Exchange (MKS (DynSlice [5; 7; 9]) Z.ltb) 1 0
    = Returned (MKS (DynSlice [7; 5; 9]) Z.ltb).
Proof.
  apply (Exchange_involutive Z.ltb [5; 7; 9] 0 1). reflexivity.
Defined.

(** ** The algorithms on any collection *)

(** X5: [Shell] never reads [begin] and [end] but through [end - begin]: on
    every collection it runs as it does over [[0, end - begin)]. *)
Theorem Shell_ignores_begin {C : Type} `{Sortable C} (c : C) (bgn end_ : Z) :
  Shell bgn end_ c = Shell 0 (GoInt.sub end_ bgn) c.
Proof. unfold Shell. by rewrite (GoIntFacts.sub_sub_0 end_ bgn). Qed.

(** X6: On every collection and for all [begin] and [end], [Shell] comes to
    an end, and each of its [Less] and [Exchange] calls has both
    positions in [[0, end - begin)]. *)
Theorem Shell_terminates_within {C : Type} `{Sortable C} (c : C) (bgn end_ : Z) :
  result (Shell bgn end_ c) <> OutOfFuel /\
  Forall (call_within 0 (GoInt.sub end_ bgn)) (calls (Shell bgn end_ c)).
Proof. eapply safe_not_diverge. apply Shell_safe. Qed.

(** X7: On every collection, [Selection] comes to an end, and each of its
    calls has both positions in [[begin, end)]. *)
Theorem Selection_terminates_within {C : Type} `{Sortable C} (c : C) (bgn end_ : Z) :
  GoInt.is_int bgn -> GoInt.is_int end_ ->
  result (Selection bgn end_ c) <> OutOfFuel /\
  Forall (call_within bgn end_) (calls (Selection bgn end_ c)).
Proof. intros Hb He. eapply safe_not_diverge. by apply Selection_safe. Qed.

Lemma Selection_terminates_within_witness :
  GoInt.is_int 0 /\ GoInt.is_int 3 /\
  result (Selection 0 3 (ints [2; 3; 1])) <> OutOfFuel /\
  Forall (call_within 0 3) (calls (Selection 0 3 (ints [2; 3; 1]))).
Proof.
  assert (Hb : GoInt.is_int 0)
    by (unfold GoInt.is_int, GoInt.min_int, GoInt.max_int; lia).
  assert (He : GoInt.is_int 3)
    by (unfold GoInt.is_int, GoInt.min_int, GoInt.max_int; lia).
  split; [exact Hb|]. split; [exact He|].
  exact (Selection_terminates_within (ints [2; 3; 1]) 0 3 Hb He).
Defined.

(** X8: On every collection, [Insertion] comes to an end, and each of its
    calls has both positions in [[begin, end)]. *)
Theorem Insertion_terminates_within {C : Type} `{Sortable C} (c : C) (bgn end_ : Z) :
  GoInt.is_int bgn -> GoInt.is_int end_ ->
  result (Insertion bgn end_ c) <> OutOfFuel /\
  Forall (call_within bgn end_) (calls (Insertion bgn end_ c)).
Proof. intros Hb He. eapply safe_not_diverge. by apply Insertion_safe. Qed.

Lemma Insertion_terminates_within_witness :
  GoInt.is_int 1 /\ GoInt.is_int 4 /\
  result (Insertion 1 4 (ints [9; 8; 1; 2; 3])) <> OutOfFuel /\
  Forall (call_within 1 4) (calls (Insertion 1 4 (ints [9; 8; 1; 2; 3]))).
Proof.
  assert (Hb : GoInt.is_int 1)
    by (unfold GoInt.is_int, GoInt.min_int, GoInt.max_int; lia).
  assert (He : GoInt.is_int 4)
    by (unfold GoInt.is_int, GoInt.min_int, GoInt.max_int; lia).
  split; [exact Hb|]. split; [exact He|].
  exact (Insertion_terminates_within (ints [9; 8; 1; 2; 3]) 1 4 Hb He).
Defined.

(** ** Insertion on a valid range of a slice *)

(** X9: [Insertion] over a valid range that holds no nil interface value
    returns normally; it reorders the elements of the range among
    themselves and leaves every other element in place; and when the
    comparator never orders two elements both ways, it leaves the range
    non-decreasing. *)
Theorem Insertion_sorts_range {A : Type} `{Element A}
    (f : A -> A -> bool) (s : list A) (bgn end_ : Z) :
  0 <= bgn <= end_ -> end_ <= Z.of_nat (length s) -> GoInt.is_int end_ ->
  no_nil (sub_slice s bgn end_) ->
  exists s' t,
    Insertion bgn end_ (MKS (DynSlice s) f) = Run (Done tt) (MKS (DynSlice s') f) t /\
    range_reordered bgn end_ s s' /\
    (asymmetric f -> nondecreasing (MKS (DynSlice s') f) bgn end_).
Proof.
  intros Hb He Hint Hnn.
  destruct (Insertion_spec f s bgn end_ Hb He Hint Hnn)
    as (mid & t & Hrun & Hperm & Hsorted & _ & _).
  destruct (parts_range_reordered s bgn end_ mid Hb He Hperm) as [Hre Hsub].
  eexists _, t. split; [exact Hrun|]. split; [exact Hre|].
  intros Hasym. apply nondecreasing_sub_slice; [lia| |].
  - destruct Hre as [Hl _]. lia.
  - rewrite Hsub. by apply Hsorted.
Qed.

Lemma Insertion_sorts_range_witness :
  0 <= 1 <= 4 /\ 4 <= Z.of_nat (length [9; 8; 1; 2; 3]) /\ GoInt.is_int 4 /\
  no_nil (sub_slice [9; 8; 1; 2; 3] 1 4) /\
  exists s' t,
    Insertion 1 4 (MKS (DynSlice [9; 8; 1; 2; 3]) Z.ltb)
      = Run (Done tt) (MKS (DynSlice s') Z.ltb) t /\
    range_reordered 1 4 [9; 8; 1; 2; 3] s' /\
    (asymmetric Z.ltb -> nondecreasing (MKS (DynSlice s') Z.ltb) 1 4).
Proof.
  assert (Hb : 0 <= 1 <= 4) by lia.
  assert (He : 4 <= Z.of_nat (length [9; 8; 1; 2; 3])) by (simpl; lia).
  assert (Hint : GoInt.is_int 4)
    by (unfold GoInt.is_int, GoInt.min_int, GoInt.max_int; lia).
  assert (Hnn : no_nil (sub_slice [9; 8; 1; 2; 3] 1 4))
    by (unfold no_nil; simpl; repeat constructor).
  split; [exact Hb|]. split; [exact He|]. split; [exact Hint|].
  split; [exact Hnn|].
  exact (Insertion_sorts_range Z.ltb [9; 8; 1; 2; 3] 1 4 Hb He Hint Hnn).
Defined.

(** X10: On a valid range that is already non-decreasing, [Insertion] makes
    no [Exchange] call and leaves the slice as it is. *)
Theorem Insertion_idle_on_sorted {A : Type} `{Element A}
    (f : A -> A -> bool) (s : list A) (bgn end_ : Z) :
  0 <= bgn <= end_ -> end_ <= Z.of_nat (length s) -> GoInt.is_int end_ ->
  nondecreasing (MKS (DynSlice s) f) bgn end_ ->
  exists t,
    Insertion bgn end_ (MKS (DynSlice s) f) = Run (Done tt) (MKS (DynSlice s) f) t /\
    exchanges t = [].
Proof.
  intros Hb He Hint Hnd. unfold Insertion.
  apply insertion_loop_idle; [lia| |done|done|lia].
  unfold GoInt.is_int, GoInt.min_int, GoInt.max_int in *. lia.
Qed.

Lemma Insertion_idle_on_sorted_witness :
  0 <= 1 <= 3 /\ 3 <= Z.of_nat (length [3; 1; 2; 0]) /\ GoInt.is_int 3 /\
  nondecreasing (MKS (DynSlice [3; 1; 2; 0]) Z.ltb) 1 3 /\
  exists t,
    Insertion 1 3 (MKS (DynSlice [3; 1; 2; 0]) Z.ltb)
      = Run (Done tt) (MKS (DynSlice [3; 1; 2; 0]) Z.ltb) t /\
    exchanges t = [].
Proof.
  assert (Hb : 0 <= 1 <= 3) by lia.
  assert (He : 3 <= Z.of_nat (length [3; 1; 2; 0])) by (simpl; lia).
  assert (Hint : GoInt.is_int 3)
    by (unfold GoInt.is_int, GoInt.min_int, GoInt.max_int; lia).
  assert (Hnd : nondecreasing (MKS (DynSlice [3; 1; 2; 0]) Z.ltb) 1 3).
  { intros k Hk1 Hk2. assert (k = 1) as -> by lia. reflexivity. }
  split; [exact Hb|]. split; [exact He|]. split; [exact Hint|].
  split; [exact Hnd|].
  exact (Insertion_idle_on_sorted Z.ltb [3; 1; 2; 0] 1 3 Hb He Hint Hnd).
Defined.

(** ** Selection on a valid range of a slice *)

(** X11: [Selection] over a valid range that holds no nil interface value
    returns normally, makes exactly one [Exchange] call for each
    position of the range, reorders the elements of the range among
    themselves and leaves every other element in place. *)
Theorem Selection_reorders_range {A : Type} `{Element A}
    (f : A -> A -> bool) (s : list A) (bgn end_ : Z) :
  0 <= bgn <= end_ -> end_ <= Z.of_nat (length s) -> GoInt.is_int end_ ->
  no_nil (sub_slice s bgn end_) ->
  exists s' t,
    Selection bgn end_ (MKS (DynSlice s) f) = Run (Done tt) (MKS (DynSlice s') f) t /\
    range_reordered bgn end_ s s' /\
    length (exchanges t) = Z.to_nat (end_ - bgn).
Proof.
  intros Hb He Hint Hnn. unfold Selection.
  apply (selection_loop_slice f bgn); [lia|lia|done|done|lia|done].
Qed.

Lemma Selection_reorders_range_witness :
  0 <= 0 <= 3 /\ 3 <= Z.of_nat (length [2; 3; 1]) /\ GoInt.is_int 3 /\
  no_nil (sub_slice [2; 3; 1] 0 3) /\
  exists s' t,
    Selection 0 3 (MKS (DynSlice [2; 3; 1]) Z.ltb)
      = Run (Done tt) (MKS (DynSlice s') Z.ltb) t /\
    range_reordered 0 3 [2; 3; 1] s' /\
    length (exchanges t) = Z.to_nat (3 - 0).
Proof.
  assert (Hb : 0 <= 0 <= 3) by lia.
  assert (He : 3 <= Z.of_nat (length [2; 3; 1])) by (simpl; lia).
  assert (Hint : GoInt.is_int 3)
    by (unfold GoInt.is_int, GoInt.min_int, GoInt.max_int; lia).
  assert (Hnn : no_nil (sub_slice [2; 3; 1] 0 3))
    by (unfold no_nil; simpl; repeat constructor).
  split; [exact Hb|]. split; [exact He|]. split; [exact Hint|].
  split; [exact Hnn|].
  exact (Selection_reorders_range Z.ltb [2; 3; 1] 0 3 Hb He Hint Hnn).
Defined.

(** X12: On a valid range that is already non-decreasing, [Selection] leaves
    the slice as it is, whether it returns or panics: each of its
    exchanges is one of a position with itself.  It returns exactly when
    the range holds no nil interface value. *)
Theorem Selection_idle_on_sorted {A : Type} `{Element A}
    (f : A -> A -> bool) (s : list A) (bgn end_ : Z) :
  0 <= bgn <= end_ -> end_ <= Z.of_nat (length s) -> GoInt.is_int end_ ->
  nondecreasing (MKS (DynSlice s) f) bgn end_ ->
  exists r t,
    Selection bgn end_ (MKS (DynSlice s) f) = Run r (MKS (DynSlice s) f) t /\
    r <> OutOfFuel /\
    Forall self_exchange (exchanges t) /\
    (r = Done tt <-> no_nil (sub_slice s bgn end_)).
Proof.
  intros Hb He Hint Hnd. unfold Selection.
  apply selection_loop_idle; [lia|done|done|done|lia].
Qed.

Lemma Selection_idle_on_sorted_witness :
  0 <= 1 <= 3 /\ 3 <= Z.of_nat (length [3; 1; 2; 0]) /\ GoInt.is_int 3 /\
  nondecreasing (MKS (DynSlice [3; 1; 2; 0]) Z.ltb) 1 3 /\
  exists r t,
    Selection 1 3 (MKS (DynSlice [3; 1; 2; 0]) Z.ltb)
      = Run r (MKS (DynSlice [3; 1; 2; 0]) Z.ltb) t /\
    r <> OutOfFuel /\
    Forall self_exchange (exchanges t) /\
    (r = Done tt <-> no_nil (sub_slice [3; 1; 2; 0] 1 3)).
Proof.
  assert (Hb : 0 <= 1 <= 3) by lia.
  assert (He : 3 <= Z.of_nat (length [3; 1; 2; 0])) by (simpl; lia).
  assert (Hint : GoInt.is_int 3)
    by (unfold GoInt.is_int, GoInt.min_int, GoInt.max_int; lia).
  assert (Hnd : nondecreasing (MKS (DynSlice [3; 1; 2; 0]) Z.ltb) 1 3).
  { intros k Hk1 Hk2. assert (k = 1) as -> by lia. reflexivity. }
  split; [exact Hb|]. split; [exact He|]. split; [exact Hint|].
  split; [exact Hnd|].
  exact (Selection_idle_on_sorted Z.ltb [3; 1; 2; 0] 1 3 Hb He Hint Hnd).
Defined.

(** ** Shell on a slice *)

(** X13: What [Shell] does on a slice for any [begin] and [end] whose
    difference [n] is a valid length, when the first [n] elements hold
    no nil interface value: it returns normally, reorders the first [n]
    elements among themselves and leaves the others in place;
    and when the comparator never orders two elements both ways, it
    leaves the positions [[0, n)] non-decreasing.  For [begin = 0] this
    is the documented sort of [[0, end)]. *)
Theorem Shell_sorts_prefix {A : Type} `{Element A}
    (f : A -> A -> bool) (s : list A) (bgn end_ : Z) :
  0 <= end_ - bgn -> end_ - bgn <= Z.of_nat (length s) ->
  GoInt.is_int (end_ - bgn) ->
  no_nil (take (Z.to_nat (end_ - bgn)) s) ->
  exists s' t,
    Shell bgn end_ (MKS (DynSlice s) f) = Run (Done tt) (MKS (DynSlice s') f) t /\
    prefix_reordered (Z.to_nat (end_ - bgn)) s s' /\
    (asymmetric f -> nondecreasing (MKS (DynSlice s') f) 0 (end_ - bgn)).
Proof.
  intros H0 Hn Hint Hnn.
  destruct (Shell_zero_spec f s (end_ - bgn) H0 Hn Hint Hnn)
    as (s' & t & Hrun & Hre & Hsorted).
  exists s', t. split; [|split; [exact Hre|]].
  - rewrite <- Hrun. unfold Shell.
    rewrite (GoIntFacts.sub_small end_ bgn) by done.
    rewrite (GoIntFacts.sub_small (end_ - bgn) 0) by (by rewrite Z.sub_0_r).
    by rewrite Z.sub_0_r.
  - intros Hasym. apply nondecreasing_sub_slice; [lia| |].
    + destruct Hre as [Hl _]. lia.
    + rewrite sub_slice_from_zero. by apply Hsorted.
Qed.

Lemma Shell_sorts_prefix_witness :
  0 <= 4 - 1 /\ 4 - 1 <= Z.of_nat (length [3; 2; 1; 0; 5]) /\ GoInt.is_int (4 - 1) /\
  no_nil (take (Z.to_nat (4 - 1)) [3; 2; 1; 0; 5]) /\
  exists s' t,
    Shell 1 4 (MKS (DynSlice [3; 2; 1; 0; 5]) Z.ltb)
      = Run (Done tt) (MKS (DynSlice s') Z.ltb) t /\
    prefix_reordered (Z.to_nat (4 - 1)) [3; 2; 1; 0; 5] s' /\
    (asymmetric Z.ltb -> nondecreasing (MKS (DynSlice s') Z.ltb) 0 (4 - 1)).
Proof.
  assert (H0 : 0 <= 4 - 1) by lia.
  assert (Hn : 4 - 1 <= Z.of_nat (length [3; 2; 1; 0; 5])) by (simpl; lia).
  assert (Hint : GoInt.is_int (4 - 1))
    by (unfold GoInt.is_int, GoInt.min_int, GoInt.max_int; lia).
  assert (Hnn : no_nil (take (Z.to_nat (4 - 1)) [3; 2; 1; 0; 5]))
    by (unfold no_nil; simpl; repeat constructor).
  split; [exact H0|]. split; [exact Hn|]. split; [exact Hint|].
  split; [exact Hnn|].
  exact (Shell_sorts_prefix Z.ltb [3; 2; 1; 0; 5] 1 4 H0 Hn Hint Hnn).
Defined.

(** X14: When the first [n = end - begin] elements of a slice are already
    non-decreasing under a comparator for which being not ordered before
    is transitive, [Shell] makes no [Exchange] call and leaves the slice
    as it is. *)
Theorem Shell_idle_on_sorted_prefix {A : Type} `{Element A}
    (f : A -> A -> bool) (s : list A) (bgn end_ : Z) :
  negatively_transitive f ->
  0 <= end_ - bgn -> end_ - bgn <= Z.of_nat (length s) ->
  GoInt.is_int (end_ - bgn) ->
  nondecreasing (MKS (DynSlice s) f) 0 (end_ - bgn) ->
  exists t,
    Shell bgn end_ (MKS (DynSlice s) f) = Run (Done tt) (MKS (DynSlice s) f) t /\
    exchanges t = [].
Proof.
  intros Hnt H0 Hn Hint Hnd.
  apply nondecreasing_sub_slice in Hnd; [|lia|done].
  rewrite sub_slice_from_zero in Hnd.
  destruct (Shell_zero_idle f s (end_ - bgn) Hnt H0 Hn Hint Hnd) as (t & Hrun & Hex).
  exists t. split; [|exact Hex].
  rewrite <- Hrun. unfold Shell.
  rewrite (GoIntFacts.sub_small end_ bgn) by done.
  rewrite (GoIntFacts.sub_small (end_ - bgn) 0) by (by rewrite Z.sub_0_r).
  by rewrite Z.sub_0_r.
Qed.

Lemma Shell_idle_on_sorted_prefix_witness :
  negatively_transitive Z.ltb /\
  0 <= 3 - 0 /\ 3 - 0 <= Z.of_nat (length [1; 2; 3; 0]) /\ GoInt.is_int (3 - 0) /\
  nondecreasing (MKS (DynSlice [1; 2; 3; 0]) Z.ltb) 0 (3 - 0) /\
  exists t,
    Shell 0 3 (MKS (DynSlice [1; 2; 3; 0]) Z.ltb)
      = Run (Done tt) (MKS (DynSlice [1; 2; 3; 0]) Z.ltb) t /\
    exchanges t = [].
Proof.
  assert (H0 : 0 <= 3 - 0) by lia.
  assert (Hn : 3 - 0 <= Z.of_nat (length [1; 2; 3; 0])) by (simpl; lia).
  assert (Hint : GoInt.is_int (3 - 0))
    by (unfold GoInt.is_int, GoInt.min_int, GoInt.max_int; lia).
  assert (Hnd : nondecreasing (MKS (DynSlice [1; 2; 3; 0]) Z.ltb) 0 (3 - 0)).
  { intros k Hk1 Hk2.
    assert (k = 0 \/ k = 1) as [-> | ->] by lia; reflexivity. }
  split; [exact negatively_transitive_ltb|].
  split; [exact H0|]. split; [exact Hn|]. split; [exact Hint|].
  split; [exact Hnd|].
  exact (Shell_idle_on_sorted_prefix Z.ltb [1; 2; 3; 0] 0 3
           negatively_transitive_ltb H0 Hn Hint Hnd).
Defined.

(** ** [By.Sort] *)

(** X15: [By(lesser).Sort(coll)] panics when [coll] is not a slice, before any
    comparison or exchange, and [coll] is returned as it was passed. *)
Theorem By_Sort_rejects_non_slice {A : Type} `{Element A}
    (f : A -> A -> bool) (c : dyn A) :
  (forall s, c <> DynSlice s) ->
  result (By_Sort f c) = Panic /\
  calls (By_Sort f c) = [] /\
  coll (final (By_Sort f c)) = c.
Proof.
  intros Hc. unfold By_Sort. cbn [Length multiKeySorter_Sortable].
  unfold mks_Length. cbn [coll].
  destruct c as [|s|]; [done| |done]. by destruct (Hc s).
Qed.

Lemma By_Sort_rejects_non_slice_witness :
  (forall s : list Z, DynOther <> DynSlice s) /\
  result (By_Sort Z.ltb DynOther) = Panic /\
  calls (By_Sort Z.ltb DynOther) = [] /\
  coll (final (By_Sort Z.ltb DynOther)) = DynOther.
Proof.
  assert (Hc : forall s : list Z, DynOther <> DynSlice s) by (intros s; discriminate).
  split; [exact Hc|].
  exact (By_Sort_rejects_non_slice Z.ltb DynOther Hc).
Defined.

(** X16: On a slice (whose length is an [int], as every Go slice's is)
    that holds no nil interface value, [By(lesser).Sort] returns
    normally with the same comparator and a slice that holds the same
    elements; when the comparator never orders
    two elements both ways, no element of the result is ordered before
    its predecessor. *)
Theorem By_Sort_sorts {A : Type} `{Element A} (f : A -> A -> bool) (s : list A) :
  Z.of_nat (length s) <= GoInt.max_int ->
  no_nil s ->
  exists s' t,
    By_Sort f (DynSlice s) = Run (Done tt) (MKS (DynSlice s') f) t /\
    s' ≡ₚ s /\
    (asymmetric f -> sorted_adj f s').
Proof.
  intros Hlen Hnn.
  assert (Hint : GoInt.is_int (Z.of_nat (length s))).
  { unfold GoInt.is_int, GoInt.min_int, GoInt.max_int in *. lia. }
  assert (Hnn' : no_nil (take (Z.to_nat (Z.of_nat (length s))) s)).
  { rewrite Nat2Z.id. by rewrite firstn_all. }
  destruct (Shell_zero_spec f s (Z.of_nat (length s)) ltac:(lia) ltac:(lia) Hint Hnn')
    as (s' & t & Hrun & (Hl & Hperm & _) & Hsorted).
  rewrite Nat2Z.id in Hperm, Hsorted.
  rewrite <- Hl in Hperm at 1. rewrite <- Hl in Hsorted.
  rewrite !firstn_all in Hperm. rewrite firstn_all in Hsorted.
  exists s', t. split; [|split; [exact Hperm|exact Hsorted]].
  unfold By_Sort. cbn [Length multiKeySorter_Sortable].
  unfold mks_Length. cbn [coll]. exact Hrun.
Qed.

Lemma By_Sort_sorts_witness :
  Z.of_nat (length [3; 1; 2]) <= GoInt.max_int /\
  no_nil [3; 1; 2] /\
  exists s' t,
    By_Sort Z.ltb (DynSlice [3; 1; 2]) = Run (Done tt) (MKS (DynSlice s') Z.ltb) t /\
    s' ≡ₚ [3; 1; 2] /\
    (asymmetric Z.ltb -> sorted_adj Z.ltb s').
Proof.
  assert (Hlen : Z.of_nat (length [3; 1; 2]) <= GoInt.max_int)
    by (unfold GoInt.max_int; simpl; lia).
  assert (Hnn : no_nil [3; 1; 2]) by (unfold no_nil; repeat constructor).
  split; [exact Hlen|]. split; [exact Hnn|].
  exact (By_Sort_sorts Z.ltb [3; 1; 2] Hlen Hnn).
Defined.

(** X17: On a slice that is already in order under a comparator for which
    being not ordered before is transitive, [By(lesser).Sort] makes no
    [Exchange] call and leaves the slice as it is. *)
Theorem By_Sort_idle_on_sorted {A : Type} `{Element A}
    (f : A -> A -> bool) (s : list A) :
  negatively_transitive f ->
  Z.of_nat (length s) <= GoInt.max_int ->
  sorted_adj f s ->
  exists t,
    By_Sort f (DynSlice s) = Run (Done tt) (MKS (DynSlice s) f) t /\
    exchanges t = [].
Proof.
  intros Hnt Hlen Hs.
  assert (Hint : GoInt.is_int (Z.of_nat (length s))).
  { unfold GoInt.is_int, GoInt.min_int, GoInt.max_int in *. lia. }
  assert (Hs' : sorted_adj f (take (Z.to_nat (Z.of_nat (length s))) s)).
  { rewrite Nat2Z.id. by rewrite firstn_all. }
  destruct (Shell_zero_idle f s (Z.of_nat (length s)) Hnt ltac:(lia) ltac:(lia) Hint Hs')
    as (t & Hrun & Hex).
  exists t. split; [|exact Hex].
  unfold By_Sort. cbn [Length multiKeySorter_Sortable].
  unfold mks_Length. cbn [coll]. exact Hrun.
Qed.

Lemma By_Sort_idle_on_sorted_witness :
  negatively_transitive Z.ltb /\
  Z.of_nat (length [1; 2; 2; 5]) <= GoInt.max_int /\
  sorted_adj Z.ltb [1; 2; 2; 5] /\
  exists t,
    By_Sort Z.ltb (DynSlice [1; 2; 2; 5])
      = Run (Done tt) (MKS (DynSlice [1; 2; 2; 5]) Z.ltb) t /\
    exchanges t = [].
Proof.
  assert (Hlen : Z.of_nat (length [1; 2; 2; 5]) <= GoInt.max_int)
    by (unfold GoInt.max_int; simpl; lia).
  assert (Hs : sorted_adj Z.ltb [1; 2; 2; 5]).
  { simpl. repeat split; reflexivity. }
  split; [exact negatively_transitive_ltb|]. split; [exact Hlen|].
  split; [exact Hs|].
  exact (By_Sort_idle_on_sorted Z.ltb [1; 2; 2; 5]
           negatively_transitive_ltb Hlen Hs).
Defined.

(** ** What the algorithms never do *)

(** X18: Whatever the range, and however the run ends, [Selection],
    [Insertion], [Shell] and [By.Sort] leave the comparator, the length
    of the slice and a [coll] that is not a slice as they were.  When the
    run returns, and also when it panics on a slice that holds no nil
    interface value, the slice holds the same elements as before: none
    is lost, duplicated or replaced. *)
Theorem runs_keep_elements {A : Type} `{Element A} (c : multiKeySorter A) (bgn end_ : Z) :
  Forall (fun r : run (multiKeySorter A) unit =>
            same_shape c (final r) /\
            (result r = Done tt \/ no_nil (slice_of c) ->
             same_elements c (final r)))
    [Selection bgn end_ c; Insertion bgn end_ c; Shell bgn end_ c;
     By_Sort (lesser c) (coll c)].
Proof.
  assert (Hall : forall r : run (multiKeySorter A) unit,
    kept (returned (result r)) c (final r) ->
    (no_nil (slice_of c) ->
     same_elements c (final r) /\ no_nil (slice_of (final r))) ->
    same_shape c (final r) /\
    (result r = Done tt \/ no_nil (slice_of c) -> same_elements c (final r))).
  { intros r Hk Hn. split; [by eapply kept_shape|].
    intros [Hd | Hnn]; [|by apply Hn]. by rewrite Hd in Hk. }
  set (N := fun (_ : bool) (c1 c2 : multiKeySorter A) =>
              no_nil (slice_of c1) ->
              same_elements c1 c2 /\ no_nil (slice_of c2)).
  assert (N_refl : forall b c1, N b c1 c1)
    by (intros b c1; exact (nil_free_refl c1)).
  assert (N_trans : forall b c1 c2 c3, N true c1 c2 -> N b c2 c3 -> N b c1 c3)
    by (intros b c1 c2 c3; exact (nil_free_trans c1 c2 c3)).
  assert (N_ret : forall c1 i j c2, Exchange c1 i j = Returned c2 -> N true c1 c2)
    by (intros c1 i j c2 Hx; exact (nil_free_exchange c1 i j c2 (or_introl Hx))).
  assert (N_pan : forall c1 i j c2, Exchange c1 i j = Panicked c2 -> N false c1 c2)
    by (intros c1 i j c2 Hx; exact (nil_free_exchange c1 i j c2 (or_intror Hx))).
  repeat apply Forall_cons_2; [| | | |apply Forall_nil_2].
  - apply Hall.
    + apply (Selection_inv kept);
        [apply kept_refl | apply kept_trans | apply kept_returned
        | apply kept_panicked].
    + by apply (Selection_inv N).
  - apply Hall.
    + apply (Insertion_inv kept);
        [apply kept_refl | apply kept_trans | apply kept_returned
        | apply kept_panicked].
    + by apply (Insertion_inv N).
  - apply Hall.
    + apply (Shell_inv kept);
        [apply kept_refl | apply kept_trans | apply kept_returned
        | apply kept_panicked].
    + by apply (Shell_inv N).
  - destruct c as [d f]. unfold By_Sort. cbn [coll lesser].
    destruct (Length (MKS d f)) as [len|].
    + apply Hall.
      * apply (Shell_inv kept);
          [apply kept_refl | apply kept_trans | apply kept_returned
          | apply kept_panicked].
      * by apply (Shell_inv N).
    + cbn [result final]. split; [apply same_shape_refl|].
      intros _. apply same_elements_refl.
Qed.

(** ** Ranges that leave the slice *)

(** X19: [Insertion] over a range of at least two positions that does not lie
    within the slice panics. *)
Theorem Insertion_out_of_range_panics {A : Type} `{Element A}
    (f : A -> A -> bool) (s : list A) (bgn end_ : Z) :
  GoInt.is_int bgn -> GoInt.is_int end_ ->
  bgn + 1 < end_ ->
  ~ (0 <= bgn /\ end_ <= Z.of_nat (length s)) ->
  result (Insertion bgn end_ (MKS (DynSlice s) f)) = Panic.
Proof.
  intros Hib Hie Hlt Hout. unfold Insertion.
  apply insertion_loop_overrun; [lia|done| |done|done|lia].
  destruct (Z_lt_le_dec bgn 0); [right|left]; lia.
Qed.

Lemma Insertion_out_of_range_panics_witness :
  GoInt.is_int 0 /\ GoInt.is_int 3 /\ 0 + 1 < 3 /\
  ~ (0 <= 0 /\ 3 <= Z.of_nat (length [1; 2])) /\
  result (Insertion 0 3 (MKS (DynSlice [1; 2]) Z.ltb)) = Panic.
Proof.
  assert (Hib : GoInt.is_int 0)
    by (unfold GoInt.is_int, GoInt.min_int, GoInt.max_int; lia).
  assert (Hie : GoInt.is_int 3)
    by (unfold GoInt.is_int, GoInt.min_int, GoInt.max_int; lia).
  assert (Hlt : 0 + 1 < 3) by lia.
  assert (Hout : ~ (0 <= 0 /\ 3 <= Z.of_nat (length [1; 2]))) by (simpl; lia).
  split; [exact Hib|]. split; [exact Hie|]. split; [exact Hlt|].
  split; [exact Hout|].
  exact (Insertion_out_of_range_panics Z.ltb [1; 2] 0 3 Hib Hie Hlt Hout).
Defined.

(** X20: [Selection] over a range of at least one position that does not lie
    within the slice panics. *)
Theorem Selection_out_of_range_panics {A : Type} `{Element A}
    (f : A -> A -> bool) (s : list A) (bgn end_ : Z) :
  GoInt.is_int bgn -> GoInt.is_int end_ ->
  bgn < end_ ->
  ~ (0 <= bgn /\ end_ <= Z.of_nat (length s)) ->
  result (Selection bgn end_ (MKS (DynSlice s) f)) = Panic.
Proof.
  intros Hib Hie Hlt Hout. unfold Selection.
  apply selection_loop_overrun; [done| |done|done|lia]. lia.
Qed.

Lemma Selection_out_of_range_panics_witness :
  GoInt.is_int (-1) /\ GoInt.is_int 2 /\ -1 < 2 /\
  ~ (0 <= -1 /\ 2 <= Z.of_nat (length [1; 2])) /\
  result (Selection (-1) 2 (MKS (DynSlice [1; 2]) Z.ltb)) = Panic.
Proof.
  assert (Hib : GoInt.is_int (-1))
    by (unfold GoInt.is_int, GoInt.min_int, GoInt.max_int; lia).
  assert (Hie : GoInt.is_int 2)
    by (unfold GoInt.is_int, GoInt.min_int, GoInt.max_int; lia).
  assert (Hlt : -1 < 2) by lia.
  assert (Hout : ~ (0 <= -1 /\ 2 <= Z.of_nat (length [1; 2]))) by lia.
  split; [exact Hib|]. split; [exact Hie|]. split; [exact Hlt|].
  split; [exact Hout|].
  exact (Selection_out_of_range_panics Z.ltb [1; 2] (-1) 2 Hib Hie Hlt Hout).
Defined.

(** X21: [Shell] panics when [end - begin] is at least 2 and exceeds the
    length of the slice, wherever [begin] lies: the first pass already
    reaches a position behind the slice. *)
Theorem Shell_out_of_range_panics {A : Type} `{Element A}
    (f : A -> A -> bool) (s : list A) (bgn end_ : Z) :
  GoInt.is_int (end_ - bgn) ->
  2 <= end_ - bgn ->
  Z.of_nat (length s) < end_ - bgn ->
  result (Shell bgn end_ (MKS (DynSlice s) f)) = Panic.
Proof.
  intros Hint Hn Hlen. unfold Shell.
  rewrite (GoIntFacts.sub_small end_ bgn) by done.
  destruct (shell_gap_below (end_ - bgn) Hint Hn) as (h & Hgap & Hh).
  rewrite Hgap. cbn [lift_gap]. rewrite bind_ret_l. cbn [result].
  rewrite shell_gaps_step by lia.
  apply bind_Panic. apply shell_pass_overrun; [lia|lia|done|done|lia].
Qed.

Lemma Shell_out_of_range_panics_witness :
  GoInt.is_int (3 - 0) /\ 2 <= 3 - 0 /\ Z.of_nat (length [1; 2]) < 3 - 0 /\
  result (Shell 0 3 (MKS (DynSlice [1; 2]) Z.ltb)) = Panic.
Proof.
  assert (Hint : GoInt.is_int (3 - 0))
    by (unfold GoInt.is_int, GoInt.min_int, GoInt.max_int; lia).
  assert (Hn : 2 <= 3 - 0) by lia.
  assert (Hlen : Z.of_nat (length [1; 2]) < 3 - 0) by (simpl; lia).
  split; [exact Hint|]. split; [exact Hn|]. split; [exact Hlen|].
  exact (Shell_out_of_range_panics Z.ltb [1; 2] 0 3 Hint Hn Hlen).
Defined.
